(** * EigenSolver: a shallow embedding of [slepc_eigensolver.py]

    The Python class [EigenSolver] is glue around three external libraries
    (dolfin, petsc4py, slepc4py).  The embedding keeps the control flow of the
    class as it is written: attribute reads that can fail, the truthiness
    tests, the order of the statements, and the objects that are mutated in
    place.  The library objects the class touches (index sets, vectors,
    matrices, the scatter context, the eigensolver) are modelled by records
    holding just what the class reads from them, in the view of one process.

    Scalars are never computed with by the class, only copied, so the whole
    development is parametric in the scalar type [A] and its zero. *)

From stdpp Require Import base numbers option list sorting gmap strings.

Open Scope Z_scope.

(** ** Errors and the error monad *)

(** The exceptions that can leave a method.  [AttributeError] is Python's;
    [OutOfRange], [WrongState] and [ShapeMismatch] stand for the PETSc/SLEPc
    error codes of the same meaning; [ConfigurationConflict] belongs to the
    error taxonomy of the specification and is raised nowhere in the class. *)
Inductive error :=
  | AttributeError
  | OutOfRange
  | WrongState
  | ShapeMismatch
  | ConfigurationConflict.

Inductive result (T : Type) :=
  | Ok (x : T)
  | Err (e : error).
Arguments Ok {T} x.
Arguments Err {T} e.

#[global] Instance result_ret : MRet result := λ T x, Ok x.
#[global] Instance result_bind : MBind result :=
  λ T U f m, match m with Ok x => f x | Err e => Err e end.

(** Reading an attribute that may not have been assigned yet. *)
Definition getattr {T} (field : option T) : result T :=
  match field with
  | Some x => Ok x
  | None => Err AttributeError
  end.

(** Values of solver options: PETSc stores them as text, the callers pass
    integers or strings. *)
Inductive optval :=
  | OInt (z : Z)
  | OStr (s : string).

(** ** Library objects *)

Section EigenSolver.
Context {A : Type} (zero : A).

(** What can be passed where a boundary condition is expected: [None], a
    Dirichlet condition (its [get_boundary_values()] dictionary, from DOF index
    to fixed value), or any other object, which has no such method. *)
Inductive pyobj :=
  | PyNone
  | DirichletBC (boundary_values : gmap Z A)
  | PyOther.

(** The [bcs] argument: a Python list, or a single object. *)
Inductive bcs_arg :=
  | BcsList (items : list pyobj)
  | BcsObj (o : pyobj).

Definition get_boundary_values (bc : pyobj) : result (gmap Z A) :=
  match bc with
  | DirichletBC vals => Ok vals
  | PyNone | PyOther => Err AttributeError
  end.

Definition keys (d : gmap Z A) : list Z := (map_to_list d).*1.

(** [function_space.dofmap().ownership_range()] *)
Record FunctionSpace := { ownership_range : Z * Z }.

(** A PETSc vector as seen by the owning process: the global index of its
    first entry and the entries. *)
Record Vec := { vec_lo : Z; vec_data : list A }.

(** A PETSc matrix: global index of the first row and column, sizes, and the
    entry at a local position. *)
Record Mat := {
  mat_lo : Z;
  mat_rows : nat;
  mat_cols : nat;
  mat_at : nat → nat → A
}.

(** ** get_interior_index_set *)

(** The loop [for bc in boundary_conditions: bc_dofs.extend(...)]. *)
Fixpoint extend_bc_dofs (boundary_conditions : list pyobj) (bc_dofs : list Z)
    : result (list Z) :=
  match boundary_conditions with
  | [] => Ok bc_dofs
  | bc :: rest =>
      vals ← get_boundary_values bc;
      extend_bc_dofs rest (bc_dofs ++ keys vals)
  end.

Definition get_interior_index_set (boundary_conditions : list pyobj)
    (function_space : FunctionSpace) : result (list Z) :=
  bc_dofs ← extend_bc_dofs boundary_conditions [];
  let '(lo, hi) := ownership_range function_space in
  let interior_dofs := filter (λ x, x ∉ bc_dofs) (seqZ lo (hi - lo)) in
  Ok interior_dofs.

(** ** The petsc4py objects used by the class *)

(** Local position of the global index [g] in an object whose first entry has
    global index [lo]. *)
Definition local_pos (lo g : Z) : nat := Z.to_nat (g - lo).

Definition index_in_range (lo : Z) (n : nat) (g : Z) : bool :=
  bool_decide (lo ≤ g < lo + Z.of_nat n).

(** Modelled from the spec: [Mat.createSubMatrix(isrow, iscol)] is petsc4py
    code, absent from the repository.  Section 4.2: the submatrix keeping
    exactly the rows of [isrow] and the columns of [iscol], in the order of
    the index sets.  An index outside the matrix is a PETSc error. *)
Definition createSubMatrix (m : Mat) (isrow iscol : list Z) : result Mat :=
  if forallb (index_in_range (mat_lo m) (mat_rows m)) isrow
     && forallb (index_in_range (mat_lo m) (mat_cols m)) iscol
  then Ok {| mat_lo := 0;
             mat_rows := length isrow;
             mat_cols := length iscol;
             mat_at := λ i j,
               match isrow !! i, iscol !! j with
               | Some r, Some c =>
                   mat_at m (local_pos (mat_lo m) r) (local_pos (mat_lo m) c)
               | _, _ => zero
               end |}
  else Err OutOfRange.

(** [Mat.createVecRight()], [Mat.createVecLeft()] and [Mat.createVecs()]:
    zero vectors the matrix can be multiplied with, resp. that hold a
    product; [createVecs] returns the pair (right, left). *)
Definition createVecRight (m : Mat) : Vec :=
  {| vec_lo := mat_lo m; vec_data := replicate (mat_cols m) zero |}.

Definition createVecLeft (m : Mat) : Vec :=
  {| vec_lo := mat_lo m; vec_data := replicate (mat_rows m) zero |}.

Definition createVecs (m : Mat) : Vec * Vec :=
  (createVecRight m, createVecLeft m).

(** The scatter context: the layout of the two vectors it was created for
    and the index sets.  [is_from = None] means every entry of the source, in
    order. *)
Record Scatter := {
  from_size : nat;
  is_from : option (list Z);
  to_lo : Z;
  to_size : nat;
  is_to : list Z
}.

(** Modelled from the spec: [Scatter.create] and [Scatter.scatter] are
    petsc4py code, absent from the repository.  Section 4.3: constructed from
    the reduced length, the index set and the full length; [scatter] copies
    [source[i]] into [destination[is_to[i]]] for every [i] and leaves the
    other positions untouched; vectors of another shape than the configured
    one fail with ShapeMismatch. *)
Definition Scatter_create (vec_from : Vec) (isf : option (list Z))
    (vec_to : Vec) (ist : list Z) : result Scatter :=
  let n_from := match isf with
                | None => length (vec_data vec_from)
                | Some idx => length idx
                end in
  if negb (n_from =? length ist)%nat then Err ShapeMismatch
  else if negb (forallb (index_in_range (vec_lo vec_to)
                           (length (vec_data vec_to))) ist)
  then Err OutOfRange
  else Ok {| from_size := length (vec_data vec_from);
             is_from := isf;
             to_lo := vec_lo vec_to;
             to_size := length (vec_data vec_to);
             is_to := ist |}.

(** The values leaving the source, in the order of [is_from]. *)
Definition scatter_values (sc : Scatter) (vec_from : Vec) : list A :=
  match is_from sc with
  | None => vec_data vec_from
  | Some idx =>
      (λ g, default zero (vec_data vec_from !! local_pos (vec_lo vec_from) g))
        <$> idx
  end.

(** One insertion per pair (value, destination index), in order. *)
Definition scatter_insert (lo : Z) (dest : list A) (p : A * Z) : list A :=
  <[local_pos lo p.2 := p.1]> dest.

Definition scatter (sc : Scatter) (vec_from vec_to : Vec) : result Vec :=
  if negb ((length (vec_data vec_from) =? from_size sc)%nat
           && (length (vec_data vec_to) =? to_size sc)%nat
           && (vec_lo vec_to =? to_lo sc))
  then Err ShapeMismatch
  else Ok {| vec_lo := vec_lo vec_to;
             vec_data := foldl (scatter_insert (to_lo sc)) (vec_data vec_to)
                           (zip (scatter_values sc vec_from) (is_to sc)) |}.

(** ** dolfin functions and the mutable world *)

(** The layout dolfin gives to the objects living on a function space [V]
    with ownership range [lo, hi): they start at [lo] and have [hi - lo]
    local entries (rows and columns for an assembled matrix). *)
Definition local_size (V : FunctionSpace) : nat :=
  Z.to_nat ((ownership_range V).2 - (ownership_range V).1).

Definition Vec_on (V : FunctionSpace) (v : Vec) : Prop :=
  vec_lo v = (ownership_range V).1 ∧ length (vec_data v) = local_size V.

Definition Mat_on (V : FunctionSpace) (m : Mat) : Prop :=
  mat_lo m = (ownership_range V).1
  ∧ mat_rows m = local_size V ∧ mat_cols m = local_size V.

(** A dolfin [Function]: its space and its vector ([u.vector().vec()]). *)
Record Function := { function_space : FunctionSpace; vector : Vec }.

(** Modelled from the spec: [Function(V)] is dolfin code, absent from the
    repository.  Sections 3 and 4.5: a freshly allocated full-space function
    has one entry per DOF of the space, at the default value zero. *)
Definition Function_new (V : FunctionSpace) : Function :=
  {| function_space := V;
     vector := {| vec_lo := (ownership_range V).1;
                  vec_data := replicate (local_size V) zero |} |}.

(** What the methods mutate outside the solver object: the process-wide
    PETSc option database ([PETScOptions]) and the function objects
    allocated so far; a function is referred to by its position in the
    store. *)
Record world := {
  petsc_options : gmap string optval;
  functions : list Function
}.

Definition Function_alloc (w : world) (V : FunctionSpace) : world * nat :=
  ({| petsc_options := petsc_options w;
      functions := functions w ++ [Function_new V] |},
   length (functions w)).

(** ** The SLEPc eigensolver *)

Inductive EPS_Type := KRYLOVSCHUR | EPS_OTHER_TYPE.
Inductive EPS_ProblemType := GHEP | EPS_OTHER_PROBLEM.
Inductive EPS_Which := TARGET_MAGNITUDE | SMALLEST_MAGNITUDE | EPS_OTHER_WHICH.
Inductive ST_Type := SHIFT | SINVERT.

(** A converged eigenpair as the engine keeps it: eigenvalue, real and
    imaginary part of the eigenvector. *)
Definition eigenpair : Type := A * list A * list A.

(** The state of an [SLEPc.EPS] object that the class sets or reads.
    [eps_options] is the content of the option database at the engine's last
    [setFromOptions()]. *)
Record EPS := {
  eps_type : EPS_Type;
  eps_problem_type : EPS_ProblemType;
  eps_which : EPS_Which;
  eps_target : option A;
  eps_st_type : ST_Type;
  eps_prefix : option string;
  eps_operators : option (Mat * Mat);
  eps_nev : Z;
  eps_options : gmap string optval;
  eps_solved : bool;
  eps_pairs : list eigenpair;
  eps_its : nat
}.

(** [SLEPc.EPS().create()] *)
Definition EPS_create : EPS :=
  {| eps_type := EPS_OTHER_TYPE; eps_problem_type := EPS_OTHER_PROBLEM;
     eps_which := EPS_OTHER_WHICH; eps_target := None; eps_st_type := SHIFT;
     eps_prefix := None; eps_operators := None; eps_nev := 1;
     eps_options := ∅; eps_solved := false; eps_pairs := []; eps_its := 0 |}.

Definition setType (t : EPS_Type) (e : EPS) : EPS :=
  {| eps_type := t; eps_problem_type := eps_problem_type e;
     eps_which := eps_which e; eps_target := eps_target e;
     eps_st_type := eps_st_type e; eps_prefix := eps_prefix e;
     eps_operators := eps_operators e; eps_nev := eps_nev e;
     eps_options := eps_options e; eps_solved := eps_solved e;
     eps_pairs := eps_pairs e; eps_its := eps_its e |}.

Definition setProblemType (t : EPS_ProblemType) (e : EPS) : EPS :=
  {| eps_type := eps_type e; eps_problem_type := t;
     eps_which := eps_which e; eps_target := eps_target e;
     eps_st_type := eps_st_type e; eps_prefix := eps_prefix e;
     eps_operators := eps_operators e; eps_nev := eps_nev e;
     eps_options := eps_options e; eps_solved := eps_solved e;
     eps_pairs := eps_pairs e; eps_its := eps_its e |}.

Definition setWhichEigenpairs (wh : EPS_Which) (e : EPS) : EPS :=
  {| eps_type := eps_type e; eps_problem_type := eps_problem_type e;
     eps_which := wh; eps_target := eps_target e;
     eps_st_type := eps_st_type e; eps_prefix := eps_prefix e;
     eps_operators := eps_operators e; eps_nev := eps_nev e;
     eps_options := eps_options e; eps_solved := eps_solved e;
     eps_pairs := eps_pairs e; eps_its := eps_its e |}.

Definition setTarget (t : A) (e : EPS) : EPS :=
  {| eps_type := eps_type e; eps_problem_type := eps_problem_type e;
     eps_which := eps_which e; eps_target := Some t;
     eps_st_type := eps_st_type e; eps_prefix := eps_prefix e;
     eps_operators := eps_operators e; eps_nev := eps_nev e;
     eps_options := eps_options e; eps_solved := eps_solved e;
     eps_pairs := eps_pairs e; eps_its := eps_its e |}.

(** [E.getST().setType(t)] *)
Definition setSTType (t : ST_Type) (e : EPS) : EPS :=
  {| eps_type := eps_type e; eps_problem_type := eps_problem_type e;
     eps_which := eps_which e; eps_target := eps_target e;
     eps_st_type := t; eps_prefix := eps_prefix e;
     eps_operators := eps_operators e; eps_nev := eps_nev e;
     eps_options := eps_options e; eps_solved := eps_solved e;
     eps_pairs := eps_pairs e; eps_its := eps_its e |}.

Definition setOptionsPrefix (prefix : string) (e : EPS) : EPS :=
  {| eps_type := eps_type e; eps_problem_type := eps_problem_type e;
     eps_which := eps_which e; eps_target := eps_target e;
     eps_st_type := eps_st_type e; eps_prefix := Some prefix;
     eps_operators := eps_operators e; eps_nev := eps_nev e;
     eps_options := eps_options e; eps_solved := eps_solved e;
     eps_pairs := eps_pairs e; eps_its := eps_its e |}.

(** New operators reset the solver: no solution is available any more. *)
Definition setOperators (k m : Mat) (e : EPS) : EPS :=
  {| eps_type := eps_type e; eps_problem_type := eps_problem_type e;
     eps_which := eps_which e; eps_target := eps_target e;
     eps_st_type := eps_st_type e; eps_prefix := eps_prefix e;
     eps_operators := Some (k, m); eps_nev := eps_nev e;
     eps_options := eps_options e; eps_solved := false;
     eps_pairs := []; eps_its := 0 |}.

Definition setDimensions (n : Z) (e : EPS) : EPS :=
  {| eps_type := eps_type e; eps_problem_type := eps_problem_type e;
     eps_which := eps_which e; eps_target := eps_target e;
     eps_st_type := eps_st_type e; eps_prefix := eps_prefix e;
     eps_operators := eps_operators e; eps_nev := n;
     eps_options := eps_options e; eps_solved := eps_solved e;
     eps_pairs := eps_pairs e; eps_its := eps_its e |}.

(** The engine reads the option database. *)
Definition setFromOptions (db : gmap string optval) (e : EPS) : EPS :=
  {| eps_type := eps_type e; eps_problem_type := eps_problem_type e;
     eps_which := eps_which e; eps_target := eps_target e;
     eps_st_type := eps_st_type e; eps_prefix := eps_prefix e;
     eps_operators := eps_operators e; eps_nev := eps_nev e;
     eps_options := db; eps_solved := eps_solved e;
     eps_pairs := eps_pairs e; eps_its := eps_its e |}.

(** [E.solve()].  The Krylov-Schur iteration is the library's: [run] stands
    for it, mapping the configured engine to the eigenpairs that converged
    and the number of iterations. *)
Definition EPS_solve (run : EPS → list eigenpair * nat) (e : EPS) : EPS :=
  {| eps_type := eps_type e; eps_problem_type := eps_problem_type e;
     eps_which := eps_which e; eps_target := eps_target e;
     eps_st_type := eps_st_type e; eps_prefix := eps_prefix e;
     eps_operators := eps_operators e; eps_nev := eps_nev e;
     eps_options := eps_options e; eps_solved := true;
     eps_pairs := (run e).1; eps_its := (run e).2 |}.

Definition getConverged (e : EPS) : nat := length (eps_pairs e).
Definition getIterationNumber (e : EPS) : nat := eps_its e.

(** Modelled from the spec: [EPS.getEigenpair(i, Vr, Vi)] is slepc4py code,
    absent from the repository.  Section 4.4: requesting an eigenpair index
    >= nconv is an error (OutOfRange), also when nconv is 0; otherwise the
    eigenvalue is returned and the two vectors are filled with the real and
    imaginary part of the eigenvector.  As in SLEPc, the call needs a solve
    before it, a negative index is out of range too, and the vectors must
    have the length of the eigenvector. *)
Definition getEigenpair (e : EPS) (i : Z) (Vr Vi : Vec)
    : result (A * Vec * Vec) :=
  if negb (eps_solved e) then Err WrongState
  else if bool_decide (i < 0 ∨ Z.of_nat (getConverged e) ≤ i) then Err OutOfRange
  else match eps_pairs e !! Z.to_nat i with
       | None => Err OutOfRange
       | Some (eig, xr, xi) =>
           if (length xr =? length (vec_data Vr))%nat
              && (length xi =? length (vec_data Vi))%nat
           then Ok (eig, {| vec_lo := vec_lo Vr; vec_data := xr |},
                         {| vec_lo := vec_lo Vi; vec_data := xi |})
           else Err ShapeMismatch
       end.

(** ** The EigenSolver object *)

(** The attributes of an [EigenSolver] instance; [None] is an attribute that
    has not been assigned.  ([comm] is stored and only handed to the output
    file; it is left out.) *)
Record EigenSolver := {
  slepc_options : option (gmap string optval);
  V : option FunctionSpace;
  bcs : option (list pyobj);
  K : option Mat;
  M : option Mat;
  index_set_not_bc : option (list Z);
  projector : option Scatter;
  E : option EPS;
  nev : option Z;
  nconv : option nat
}.

Definition new_object : EigenSolver :=
  {| slepc_options := None; V := None; bcs := None; K := None; M := None;
     index_set_not_bc := None; projector := None; E := None; nev := None;
     nconv := None |}.

Definition set_slepc_options (x : gmap string optval) (self : EigenSolver) :=
  {| slepc_options := Some x; V := V self; bcs := bcs self; K := K self;
     M := M self; index_set_not_bc := index_set_not_bc self;
     projector := projector self; E := E self; nev := nev self;
     nconv := nconv self |}.

Definition set_V (x : FunctionSpace) (self : EigenSolver) :=
  {| slepc_options := slepc_options self; V := Some x; bcs := bcs self;
     K := K self; M := M self; index_set_not_bc := index_set_not_bc self;
     projector := projector self; E := E self; nev := nev self;
     nconv := nconv self |}.

Definition set_bcs (x : list pyobj) (self : EigenSolver) :=
  {| slepc_options := slepc_options self; V := V self; bcs := Some x;
     K := K self; M := M self; index_set_not_bc := index_set_not_bc self;
     projector := projector self; E := E self; nev := nev self;
     nconv := nconv self |}.

Definition set_K (x : Mat) (self : EigenSolver) :=
  {| slepc_options := slepc_options self; V := V self; bcs := bcs self;
     K := Some x; M := M self; index_set_not_bc := index_set_not_bc self;
     projector := projector self; E := E self; nev := nev self;
     nconv := nconv self |}.

Definition set_M (x : Mat) (self : EigenSolver) :=
  {| slepc_options := slepc_options self; V := V self; bcs := bcs self;
     K := K self; M := Some x; index_set_not_bc := index_set_not_bc self;
     projector := projector self; E := E self; nev := nev self;
     nconv := nconv self |}.

Definition set_index_set_not_bc (x : list Z) (self : EigenSolver) :=
  {| slepc_options := slepc_options self; V := V self; bcs := bcs self;
     K := K self; M := M self; index_set_not_bc := Some x;
     projector := projector self; E := E self; nev := nev self;
     nconv := nconv self |}.

Definition set_projector (x : Scatter) (self : EigenSolver) :=
  {| slepc_options := slepc_options self; V := V self; bcs := bcs self;
     K := K self; M := M self; index_set_not_bc := index_set_not_bc self;
     projector := Some x; E := E self; nev := nev self;
     nconv := nconv self |}.

Definition set_E (x : EPS) (self : EigenSolver) :=
  {| slepc_options := slepc_options self; V := V self; bcs := bcs self;
     K := K self; M := M self; index_set_not_bc := index_set_not_bc self;
     projector := projector self; E := Some x; nev := nev self;
     nconv := nconv self |}.

Definition set_nev (x : Z) (self : EigenSolver) :=
  {| slepc_options := slepc_options self; V := V self; bcs := bcs self;
     K := K self; M := M self; index_set_not_bc := index_set_not_bc self;
     projector := projector self; E := E self; nev := Some x;
     nconv := nconv self |}.

Definition set_nconv (x : nat) (self : EigenSolver) :=
  {| slepc_options := slepc_options self; V := V self; bcs := bcs self;
     K := K self; M := M self; index_set_not_bc := index_set_not_bc self;
     projector := projector self; E := E self; nev := nev self;
     nconv := Some x |}.

(** Python truthiness of the values the class tests with [if]. *)
Definition str_truthy (s : option string) : bool :=
  match s with
  | Some (String _ _) => true
  | Some EmptyString | None => false
  end.

Definition list_truthy {T} (l : list T) : bool :=
  match l with
  | [] => false
  | _ :: _ => true
  end.

(** The default of the [slepc_options] parameter: [{'eps_max_it': 100}]. *)
Definition default_slepc_options : gmap string optval :=
  {[ "eps_max_it"%string := OInt 100 ]}.

(** ** eigensolver_setup *)

Definition eigensolver_setup : EPS :=
  let E := EPS_create in
  let E := setType KRYLOVSCHUR E in
  let E := setProblemType GHEP E in
  let E := setWhichEigenpairs TARGET_MAGNITUDE E in
  let E := setTarget zero E in
  let E := setSTType SINVERT E in
  E.

(** ** __init__ *)

(** [if type(bcs) == list: self.bcs = bcs else: self.bcs = [bcs]] *)
Definition bcs_as_list (bcs' : bcs_arg) : list pyobj :=
  match bcs' with
  | BcsList items => items
  | BcsObj o => [o]
  end.

(** The body of [if self.bcs:] in the constructor. *)
Definition init_reduce (u : Function) (self : EigenSolver)
    : result EigenSolver :=
  boundary_conditions ← getattr (bcs self);
  function_space ← getattr (V self);
  index_set ← get_interior_index_set boundary_conditions function_space;
  let self := set_index_set_not_bc index_set self in
  k ← getattr (K self);
  isr ← getattr (index_set_not_bc self);
  k' ← createSubMatrix k isr isr;
  let self := set_K k' self in
  m ← getattr (M self);
  m' ← createSubMatrix m isr isr;
  let self := set_M m' self in
  k ← getattr (K self);
  ist ← getattr (index_set_not_bc self);
  sc ← Scatter_create (createVecRight k) None (vector u) ist;
  Ok (set_projector sc self).

(** [a_k] and [a_m] are the matrices [assemble] returns for the two forms
    (the assembler is dolfin's).  [slepc_options' = None] is a call that does
    not pass the argument, so that the parameter is bound to its default;
    the defaults of the other parameters are the values [BcsObj PyNone],
    [None] and [None]. *)
Definition EigenSolver_init (a_k a_m : Mat) (u : Function) (bcs' : bcs_arg)
    (slepc_options' : option (gmap string optval))
    (option_prefix : option string) (slepc_eigensolver : option EPS)
    : result EigenSolver :=
  let self := new_object in
  let self :=
    set_slepc_options (default default_slepc_options slepc_options') self in
  self ← (if str_truthy option_prefix
          then e ← getattr (E self);
               Ok (set_E (setOptionsPrefix (default EmptyString option_prefix) e)
                     self)
          else Ok self);
  let self := set_V (function_space u) self in
  let self := set_bcs (bcs_as_list bcs') self in
  let self := set_K a_k self in
  let self := set_M a_m self in
  boundary_conditions ← getattr (bcs self);
  self ← (if list_truthy boundary_conditions
          then init_reduce u self
          else Ok self);
  let self := match slepc_eigensolver with
              | Some e => set_E e self
              | None => set_E eigensolver_setup self
              end in
  e ← getattr (E self);
  k ← getattr (K self);
  m ← getattr (M self);
  Ok (set_E (setOperators k m e) self).

(** ** set_options and solve *)

Definition PETScOptions_set (w : world) (item : string * optval) : world :=
  {| petsc_options := <[item.1 := item.2]> (petsc_options w);
     functions := functions w |}.

Definition set_options (self : EigenSolver) (w : world)
    (slepc_options' : gmap string optval) : result (EigenSolver * world) :=
  let w := foldl PETScOptions_set w (map_to_list slepc_options') in
  e ← getattr (E self);
  Ok (set_E (setFromOptions (petsc_options w) e) self, w).

(** The local name [E] of the method is an alias of the object [self.E]:
    every step below acts on the attribute. *)
Definition solve (self : EigenSolver) (w : world) (n_eig : Z)
    (run : EPS → list eigenpair * nat)
    : result (EigenSolver * world * (nat * nat)) :=
  e ← getattr (E self);
  let self := set_E (setDimensions n_eig e) self in
  opts ← getattr (slepc_options self);
  '(self, w) ← set_options self w opts;
  e ← getattr (E self);
  let self := set_E (setFromOptions (petsc_options w) e) self in
  e ← getattr (E self);
  let self := set_E (EPS_solve run e) self in
  e ← getattr (E self);
  let its := getIterationNumber e in
  let self := set_nev (eps_nev e) self in
  let self := set_nconv (getConverged e) self in
  n ← getattr (nconv self);
  Ok (self, w, (n, its)).

(** The engine as [solve] has configured it when the iteration starts:
    [setDimensions], then the two [setFromOptions] (the one inside
    [set_options] and the one of [solve]), which both read the store [db]. *)
Definition configured (n_eig : Z) (db : gmap string optval) (e : EPS) : EPS :=
  setFromOptions db (setFromOptions db (setDimensions n_eig e)).

(** ** get_eigenpair *)

(** [projector.scatter(vec_from=v, vec_to=f.vector().vec())] on the function
    stored at [l]: the vector of the function is updated in place. *)
Definition scatter_to_function (sc : Scatter) (vec_from : Vec) (l : nat)
    (w : world) : result world :=
  f ← getattr (functions w !! l);
  v ← scatter sc vec_from (vector f);
  Ok {| petsc_options := petsc_options w;
        functions := <[l := {| function_space := function_space f;
                               vector := v |}]> (functions w) |}.

Definition get_eigenpair (self : EigenSolver) (w : world) (i : Z)
    : result (world * (A * nat * nat)) :=
  function_space ← getattr (V self);
  let '(w, u_r) := Function_alloc w function_space in
  let '(w, u_im) := Function_alloc w function_space in
  k ← getattr (K self);
  let '(v_r, v_i) := createVecs k in
  e ← getattr (E self);
  '(eig, v_r, v_i) ← getEigenpair e i v_r v_i;
  boundary_conditions ← getattr (bcs self);
  w ← (if list_truthy boundary_conditions
       then sc ← getattr (projector self);
            w ← scatter_to_function sc v_r u_r w;
            sc ← getattr (projector self);
            scatter_to_function sc v_i u_im w
       else Ok w);
  Ok (w, (eig, u_r, u_im)).

End EigenSolver.

Arguments pyobj A : clear implicits.
Arguments bcs_arg A : clear implicits.
Arguments Vec A : clear implicits.
Arguments Mat A : clear implicits.
Arguments Function A : clear implicits.
Arguments world A : clear implicits.
Arguments eigenpair A : clear implicits.
Arguments EPS A : clear implicits.
Arguments EigenSolver A : clear implicits.

Arguments get_interior_index_set : simpl never.
Arguments createSubMatrix : simpl never.
Arguments Scatter_create : simpl never.
Arguments scatter : simpl never.

(** ** get_eigenvalues and get_eigenpairs *)

Section Aggregates.
Context {A : Type} (zero : A).

(** The loop [for i in range(n)] of [get_eigenpairs], on the indices still to
    visit, with the three lists built so far.  The functions are referred
    to by their position in the store, as [get_eigenpair] returns them. *)
Fixpoint get_eigenpairs_loop (self : EigenSolver A) (w : world A)
    (indices : list Z) (eigenvalues : list A)
    (eigenvectors_real eigenvectors_im : list nat)
    : result (world A * (list A * (list nat * list nat))) :=
  match indices with
  | [] => Ok (w, (eigenvalues, (eigenvectors_real, eigenvectors_im)))
  | i :: rest =>
      '(w, (eig, u_r, u_im)) ← get_eigenpair zero self w i;
      get_eigenpairs_loop self w rest (eigenvalues ++ [eig])
        (eigenvectors_real ++ [u_r]) (eigenvectors_im ++ [u_im])
  end.

(** Returns [np.array(eigenvalues), [eigenvectors_real, eigenvectors_im]]. *)
Definition get_eigenpairs (self : EigenSolver A) (w : world A) (n : Z)
    : result (world A * (list A * (list nat * list nat))) :=
  get_eigenpairs_loop self w (seqZ 0 n) [] [] [].

(** The outcome [o] of the call [get_eigenpair(i)], in whatever store it
    runs: the eigenvalue returned and the two functions appended, whose
    positions are returned. *)
Definition appends (self : EigenSolver A) (i : Z)
    (o : A * Function A * Function A) : Prop :=
  ∀ w : world A,
    get_eigenpair zero self w i
    = Ok ({| petsc_options := petsc_options w;
             functions := functions w ++ [o.1.2; o.2] |},
          (o.1.1, length (functions w), S (length (functions w)))).

(** [eig.real]: the real part of an eigenvalue, whatever the scalar type. *)
Context (real : A → A).

(** The loop of [get_eigenvalues]: the functions of each pair are dropped. *)
Fixpoint get_eigenvalues_loop (self : EigenSolver A) (w : world A)
    (indices : list Z) (eigenvalues : list A) : result (world A * list A) :=
  match indices with
  | [] => Ok (w, eigenvalues)
  | i :: rest =>
      '(w, (eig, u_r, u_im)) ← get_eigenpair zero self w i;
      get_eigenvalues_loop self w rest (eigenvalues ++ [real eig])
  end.

Definition get_eigenvalues (self : EigenSolver A) (w : world A) (n : Z)
    : result (world A * list A) :=
  get_eigenvalues_loop self w (seqZ 0 n) [].

End Aggregates.

(** * A small instance

    A function space of four DOFs owned by one process, two Dirichlet
    conditions that overlap on DOF 3 (the second one also names DOF 7, which
    the process does not own), integer scalars, and an engine that reports
    one converged eigenpair after five iterations. *)

Module Sample.

Definition V4 : FunctionSpace := {| ownership_range := (0, 4) |}.

Definition bc_a : gmap Z Z := {[ 0 := 0; 3 := 0 ]}.
Definition bc_b : gmap Z Z := {[ 3 := 0; 7 := 5 ]}.
Definition bc_far : gmap Z Z := {[ 7 := 5 ]}.
Definition bc_mid : gmap Z Z := {[ 1 := 0 ]}.
Definition bc_all : gmap Z Z := {[ 0 := 0; 1 := 0; 2 := 0; 3 := 0 ]}.

Definition K4 : Mat Z :=
  {| mat_lo := 0; mat_rows := 4; mat_cols := 4;
     mat_at := λ i j, Z.of_nat (10 * i + j) |}.
Definition M4 : Mat Z :=
  {| mat_lo := 0; mat_rows := 4; mat_cols := 4;
     mat_at := λ i j, 100 + Z.of_nat (10 * i + j) |}.

Definition u4 : Function Z := Function_new 0 V4.

Definition store0 : world Z := {| petsc_options := ∅; functions := [] |}.

(** The engine on the reduced problem (two interior DOFs) and on the full
    problem (four DOFs). *)
Definition run2 (e : EPS Z) : list (eigenpair Z) * nat :=
  ([(7, [1; 2], [3; 4])], 5%nat).
Definition run4 (e : EPS Z) : list (eigenpair Z) * nat :=
  ([(7, [1; 2; 3; 4], [5; 6; 7; 8])], 5%nat).
Definition run_none (e : EPS Z) : list (eigenpair Z) * nat := ([], 100%nat).

Definition from_Ok {T} (d : T) (r : result T) : T :=
  match r with
  | Ok x => x
  | Err _ => d
  end.

Definition two_bcs : bcs_arg Z :=
  BcsList [DirichletBC bc_a; DirichletBC bc_b].

(** The solver built with the two conditions, and the same after a solve. *)
Definition solver : EigenSolver Z :=
  from_Ok new_object (EigenSolver_init 0 K4 M4 u4 two_bcs None None None).

Definition solved : EigenSolver Z * world Z * (nat * nat) :=
  from_Ok (new_object, store0, (0%nat, 0%nat)) (solve solver store0 3 run2).

Definition engine_solved : EPS Z :=
  default (eigensolver_setup 0) (E solved.1.1).

(** A caller's option mapping that does not name [eps_max_it]. *)
Definition user_options : gmap string optval :=
  {[ "eps_tol"%string := OStr "1e-8" ]}.

Definition solver_user : EigenSolver Z :=
  from_Ok new_object
    (EigenSolver_init 0 K4 M4 u4 two_bcs (Some user_options) None None).

(** The solver built without boundary conditions. *)
Definition solver_free : EigenSolver Z :=
  from_Ok new_object
    (EigenSolver_init 0 K4 M4 u4 (BcsList []) None None None).

(** A reduced vector, a full-space destination with old content, and a
    store that already holds a function with old content. *)
Definition v2 : Vec Z := {| vec_lo := 0; vec_data := [8; 9] |}.
Definition dest4 : Vec Z := {| vec_lo := 0; vec_data := [5; 5; 5; 5] |}.
Definition store_used : world Z :=
  {| petsc_options := ∅;
     functions := [ {| function_space := V4; vector := dest4 |} ] |}.

(** A second solve, of the solver built with the caller's mapping, in the
    store the first solve has left. *)
Definition solved_user : EigenSolver Z * world Z * (nat * nat) :=
  from_Ok (new_object, store0, (0%nat, 0%nat))
    (solve solver_user solved.1.2 3 run2).

(** The reduced stiffness matrix of the solved solver. *)
Definition K_reduced : Mat Z := default K4 (K solved.1.1).

(** One extraction from the solved solver into the used store. *)
Definition extracted : world Z * (Z * nat * nat) :=
  from_Ok (store0, (0, 0%nat, 0%nat))
    (get_eigenpair 0 solved.1.1 store_used 0).

End Sample.

(** * Properties *)

Section Proofs.
Context {A : Type} (zero : A).

Implicit Types (B : list (gmap Z A)) (lo hi : Z).

(** ** Interior DOF selection *)

Lemma elem_of_keys (d : gmap Z A) x : x ∈ keys d ↔ x ∈ dom d.
Proof.
  unfold keys. rewrite list_elem_of_fmap, elem_of_dom. split.
  - intros ([k v] & -> & Hin). apply elem_of_map_to_list in Hin. by exists v.
  - intros [v Hv]. exists (x, v). split; [done|]. by apply elem_of_map_to_list.
Qed.

(** On a list of Dirichlet conditions the loop cannot fail and appends the
    keys of each dictionary in turn. *)
Lemma extend_bc_dofs_DirichletBC B acc :
  extend_bc_dofs (DirichletBC <$> B) acc = Ok (acc ++ concat (keys <$> B)).
Proof.
  revert acc. induction B as [|b B IH]; intros acc; simpl.
  - by rewrite app_nil_r.
  - rewrite IH. by rewrite <-(assoc_L (++)).
Qed.

Lemma elem_of_bc_dofs B x :
  x ∈ concat (keys <$> B) ↔ x ∈ ⋃ (dom <$> B : list (gset Z)).
Proof.
  rewrite elem_of_union_list. induction B as [|b B IH]; simpl.
  - split; [by intros ?%elem_of_nil|]. by intros (X & ?%elem_of_nil & _).
  - rewrite elem_of_app, elem_of_keys, IH. split.
    + intros [Hx|(X & HX & Hx)].
      * exists (dom b). split; [left|done].
      * exists X. split; [by right|done].
    + intros (X & HX & Hx). apply elem_of_cons in HX as [->|HX]; [by left|].
      right. by exists X.
Qed.

Lemma elem_of_constrained B x :
  x ∈ ⋃ (dom <$> B : list (gset Z)) ↔ ∃ b, b ∈ B ∧ is_Some (b !! x).
Proof.
  rewrite elem_of_union_list. split.
  - intros (X & (b & -> & Hb)%list_elem_of_fmap & Hx).
    exists b. split; [done|]. by apply elem_of_dom.
  - intros (b & Hb & Hx). exists (dom b). split.
    + apply list_elem_of_fmap. by exists b.
    + by apply elem_of_dom.
Qed.

Lemma get_interior_index_set_DirichletBC B lo hi :
  get_interior_index_set (DirichletBC <$> B) {| ownership_range := (lo, hi) |}
  = Ok (filter (λ x, x ∉ concat (keys <$> B)) (seqZ lo (hi - lo))).
Proof.
  unfold get_interior_index_set. by rewrite extend_bc_dofs_DirichletBC.
Qed.

Lemma StronglySorted_seqZ m n : StronglySorted Z.lt (seqZ m n).
Proof.
  destruct (decide (n ≤ 0)) as [Hn|Hn]; [rewrite seqZ_nil by done; constructor|].
  rewrite <-(Z2Nat.id n) by lia. generalize (Z.to_nat n) as k. clear Hn.
  intros k. revert m. induction k as [|k IH]; intros m.
  - rewrite seqZ_nil by done. constructor.
  - rewrite seqZ_cons by lia. constructor.
    + replace (Z.pred (Z.of_nat (S k))) with (Z.of_nat k) by lia. apply IH.
    + apply Forall_forall. intros y Hy%elem_of_seqZ. lia.
Qed.

Lemma StronglySorted_filter {T} (R : relation T) (P : T → Prop)
    `{∀ x, Decision (P x)} (l : list T) :
  StronglySorted R l → StronglySorted R (filter P l).
Proof.
  induction 1 as [|x l Hl IH Hx]; [constructor|].
  rewrite filter_cons. destruct (decide (P x)); [|done].
  constructor; [done|].
  apply Forall_forall. intros y [_ Hy]%list_elem_of_filter.
  by eapply Forall_forall in Hx.
Qed.

Lemma filter_ext_elem_of {T} (P Q : T → Prop) `{∀ x, Decision (P x)}
    `{∀ x, Decision (Q x)} (l : list T) :
  (∀ x, x ∈ l → P x ↔ Q x) → filter P l = filter Q l.
Proof.
  induction l as [|x l IH]; intros HPQ; [done|].
  rewrite !filter_cons.
  rewrite IH by (intros y Hy; apply HPQ; by right).
  destruct (decide (P x)) as [HP|HP], (decide (Q x)) as [HQ|HQ]; try done.
  - destruct HQ. apply HPQ; [left|done].
  - destruct HP. apply HPQ; [left|done].
Qed.

Lemma elem_of_interior B lo hi x :
  x ∈ filter (λ x, x ∉ concat (keys <$> B)) (seqZ lo (hi - lo))
  ↔ lo ≤ x < hi ∧ ∀ b, b ∈ B → b !! x = None.
Proof.
  rewrite list_elem_of_filter, elem_of_seqZ, elem_of_bc_dofs,
    elem_of_constrained.
  split.
  - intros [Hn Hr]. split; [lia|]. intros b Hb.
    destruct (b !! x) eqn:Hbx; [|done]. destruct Hn. exists b. eauto.
  - intros [Hr Hn]. split; [|lia]. intros (b & Hb & [v Hv]).
    specialize (Hn b Hb). congruence.
Qed.

(** C2. For every sequence of boundary conditions and every ownership range
    [lo, hi), the selector returns the strictly ascending, duplicate-free
    list of exactly the indices of [lo, hi) that are a key of no boundary
    condition; the interior set and the constrained set restricted to
    [lo, hi) are disjoint, their union is [lo, hi), and their sizes add up
    to [hi - lo], where a DOF constrained by several conditions counts
    once. *)
Theorem interior_index_set_partition B lo hi :
  lo ≤ hi →
  ∃ interior : list Z,
    get_interior_index_set (DirichletBC <$> B) {| ownership_range := (lo, hi) |}
    = Ok interior
    ∧ StronglySorted Z.lt interior
    ∧ NoDup interior
    ∧ (∀ x, x ∈ interior ↔ lo ≤ x < hi ∧ ∀ b, b ∈ B → b !! x = None)
    ∧ (list_to_set interior : gset Z)
        ## (⋃ (dom <$> B) ∩ list_to_set (seqZ lo (hi - lo)))
    ∧ (list_to_set interior : gset Z)
        ∪ (⋃ (dom <$> B) ∩ list_to_set (seqZ lo (hi - lo)))
      = list_to_set (seqZ lo (hi - lo))
    ∧ Z.of_nat (length interior)
      + Z.of_nat (size (⋃ (dom <$> B) ∩ list_to_set (seqZ lo (hi - lo))
                        : gset Z))
      = hi - lo.
Proof.
  intros Hle. eexists. split; [apply get_interior_index_set_DirichletBC|].
  set (interior := filter _ _).
  assert (Hnd : NoDup interior) by apply NoDup_filter, NoDup_seqZ.
  assert (Hin : ∀ x, x ∈ interior
                     ↔ lo ≤ x < hi ∧ ∀ b, b ∈ B → b !! x = None)
    by apply elem_of_interior.
  assert (Hdisj : (list_to_set interior : gset Z)
                  ## (⋃ (dom <$> B) ∩ list_to_set (seqZ lo (hi - lo)))).
  { apply elem_of_disjoint. intros x Hx%elem_of_list_to_set Hc.
    apply elem_of_intersection in Hc as [Hc _].
    apply elem_of_constrained in Hc as (b & Hb & [v Hv]).
    apply Hin in Hx as [_ Hx]. specialize (Hx b Hb). congruence. }
  assert (Hun : (list_to_set interior : gset Z)
                ∪ (⋃ (dom <$> B) ∩ list_to_set (seqZ lo (hi - lo)))
                = list_to_set (seqZ lo (hi - lo))).
  { apply set_eq. intros x.
    rewrite elem_of_union, elem_of_intersection, !elem_of_list_to_set,
      elem_of_seqZ, Hin, elem_of_constrained.
    split; [intros [[? _]|[_ ?]]; lia|]. intros Hr.
    destruct (decide (Exists (λ b : gmap Z A, is_Some (b !! x)) B)) as [He|He].
    - right. split; [|done]. apply Exists_exists in He. naive_solver.
    - left. split; [lia|]. intros b Hb. destruct (b !! x) eqn:Hbx; [|done].
      destruct He. apply Exists_exists. exists b. by rewrite Hbx. }
  split_and!; try done.
  - apply StronglySorted_filter, StronglySorted_seqZ.
  - rewrite <-Nat2Z.inj_add, <-(size_list_to_set (C:=gset Z) interior) by done.
    rewrite <-size_union, Hun by done.
    rewrite size_list_to_set by apply NoDup_seqZ.
    rewrite length_seqZ. lia.
Qed.

(** No call of the selector ends in a ConfigurationConflict: the only way
    it fails is an element without [get_boundary_values]. *)
Lemma extend_bc_dofs_error (boundary_conditions : list (pyobj A)) acc e :
  extend_bc_dofs boundary_conditions acc = Err e → e = AttributeError.
Proof.
  revert acc. induction boundary_conditions as [|bc rest IH]; intros acc; simpl.
  - discriminate.
  - destruct bc as [|vals|]; simpl; [congruence|apply IH|congruence].
Qed.

Lemma get_interior_index_set_error (boundary_conditions : list (pyobj A))
    function_space e :
  get_interior_index_set boundary_conditions function_space = Err e →
  e = AttributeError.
Proof.
  unfold get_interior_index_set.
  destruct (extend_bc_dofs boundary_conditions []) as [dofs|e'] eqn:Hext; simpl.
  - by destruct (ownership_range function_space).
  - intros [= <-]. by eapply extend_bc_dofs_error.
Qed.

(** C7, as the code has it. Keys of a boundary condition outside the
    ownership range [lo, hi) are ignored without an error: selection succeeds
    and returns what it returns once every dictionary is restricted to the
    keys inside [lo, hi); no input makes it fail with ConfigurationConflict. *)
Theorem interior_index_set_ignores_foreign_keys B lo hi :
  get_interior_index_set (DirichletBC <$> B) {| ownership_range := (lo, hi) |}
  = get_interior_index_set
      (DirichletBC <$> (filter (λ kv, lo ≤ kv.1 < hi) <$> B))
      {| ownership_range := (lo, hi) |}
  ∧ (∃ interior,
       get_interior_index_set (DirichletBC <$> B)
         {| ownership_range := (lo, hi) |} = Ok interior)
  ∧ ∀ (boundary_conditions : list (pyobj A)) function_space,
      get_interior_index_set boundary_conditions function_space
      ≠ Err ConfigurationConflict.
Proof.
  split; [|split].
  - rewrite !get_interior_index_set_DirichletBC. f_equal.
    apply filter_ext_elem_of. intros x Hx%elem_of_seqZ.
    rewrite !elem_of_bc_dofs, !elem_of_constrained.
    split; intros Hn (b & Hb & Hbx); apply Hn.
    + apply list_elem_of_fmap in Hb as (b' & -> & Hb').
      exists b'. split; [done|].
      destruct Hbx as [v Hv]. apply map_lookup_filter_Some in Hv as [Hv _].
      by exists v.
    + exists (filter (λ kv, lo ≤ kv.1 < hi) b). split.
      * apply list_elem_of_fmap. by exists b.
      * destruct Hbx as [v Hv]. exists v.
        apply map_lookup_filter_Some. split; [done|]. simpl. lia.
  - eexists. apply get_interior_index_set_DirichletBC.
  - intros bcs' fs Herr. by apply get_interior_index_set_error in Herr.
Qed.

(** ** The scatter *)

Lemma local_pos_inj lo g g' :
  lo ≤ g → lo ≤ g' → local_pos lo g = local_pos lo g' → g = g'.
Proof. unfold local_pos. lia. Qed.

Lemma index_in_range_spec lo n g :
  index_in_range lo n g = true ↔ lo ≤ g < lo + Z.of_nat n.
Proof. unfold index_in_range. by rewrite bool_decide_eq_true. Qed.

Lemma index_in_range_local_pos lo n g :
  index_in_range lo n g = true → (local_pos lo g < n)%nat.
Proof. rewrite index_in_range_spec. unfold local_pos. lia. Qed.

Lemma forallb_Forall_true {T} (f : T → bool) (l : list T) :
  forallb f l = true ↔ Forall (λ x, f x = true) l.
Proof.
  rewrite forallb_forall, Forall_forall.
  by setoid_rewrite list_elem_of_In.
Qed.

Lemma scatter_fold_length lo (ps : list (A * Z)) (dest : list A) :
  length (foldl (scatter_insert lo) dest ps) = length dest.
Proof.
  revert dest. induction ps as [|p ps IH]; intros dest; simpl; [done|].
  rewrite IH. apply length_insert.
Qed.

(** Positions that are the target of no index keep their value. *)
Lemma scatter_fold_frame lo (ps : list (A * Z)) (dest : list A) (p : nat) :
  (∀ q, q ∈ ps → local_pos lo q.2 ≠ p) →
  foldl (scatter_insert lo) dest ps !! p = dest !! p.
Proof.
  revert dest. induction ps as [|q ps IH]; intros dest Hp; simpl; [done|].
  rewrite IH by (intros q' Hq'; apply Hp; by right).
  unfold scatter_insert. apply list_lookup_insert_ne. apply Hp. left.
Qed.

(** With distinct indices inside the destination, the i-th value lands at
    the position of the i-th index. *)
Lemma scatter_fold_lookup lo (vals : list A) (idx : list Z) (dest : list A)
    (i : nat) (g : Z) (x : A) :
  NoDup idx →
  Forall (λ g, index_in_range lo (length dest) g = true) idx →
  idx !! i = Some g → vals !! i = Some x →
  foldl (scatter_insert lo) dest (zip vals idx) !! local_pos lo g = Some x.
Proof.
  revert vals dest i.
  induction idx as [|g0 idx IH]; intros vals dest i Hnd Hrange Hg Hx;
    [done|].
  destruct vals as [|x0 vals]; [done|]. simpl.
  apply NoDup_cons in Hnd as [Hg0 Hnd].
  apply Forall_cons in Hrange as [Hr0 Hrange].
  destruct i as [|i]; simpl in *.
  - injection Hg as ->. injection Hx as ->.
    rewrite scatter_fold_frame.
    + unfold scatter_insert. simpl. apply list_lookup_insert_eq.
      by apply index_in_range_local_pos.
    + intros [y g'] Hq. simpl. intros Heq.
      apply elem_of_zip_r in Hq. simpl in Hq.
      apply local_pos_inj in Heq; [by subst| |].
      * eapply Forall_forall in Hrange; [|done].
        apply index_in_range_spec in Hrange. lia.
      * apply index_in_range_spec in Hr0. lia.
  - eapply IH; try done.
    unfold scatter_insert. by rewrite length_insert.
Qed.

(** What a successful [Scatter_create] with [is_from = None] records. *)
Lemma Scatter_create_Ok_inv (vec_from vec_to : Vec A) (ist : list Z) sc :
  Scatter_create vec_from None vec_to ist = Ok sc →
  length (vec_data vec_from) = length ist
  ∧ Forall (λ g, index_in_range (vec_lo vec_to) (length (vec_data vec_to)) g
                 = true) ist
  ∧ sc = {| from_size := length (vec_data vec_from); is_from := None;
            to_lo := vec_lo vec_to; to_size := length (vec_data vec_to);
            is_to := ist |}.
Proof.
  unfold Scatter_create.
  destruct (length (vec_data vec_from) =? length ist)%nat eqn:Hlen; simpl;
    [|discriminate].
  destruct (forallb _ ist) eqn:Hall; simpl; [|discriminate].
  intros [= <-]. split_and!; [|by apply forallb_Forall_true|done].
  by apply Nat.eqb_eq.
Qed.

(** The scatter of a context created with [is_from = None], on vectors of
    the configured shape. *)
Lemma scatter_Ok (vec_from0 vec_to0 : Vec A) (ist : list Z) sc
    (vec_from vec_to : Vec A) :
  Scatter_create vec_from0 None vec_to0 ist = Ok sc →
  length (vec_data vec_from) = length (vec_data vec_from0) →
  length (vec_data vec_to) = length (vec_data vec_to0) →
  vec_lo vec_to = vec_lo vec_to0 →
  scatter zero sc vec_from vec_to
  = Ok {| vec_lo := vec_lo vec_to;
          vec_data := foldl (scatter_insert (vec_lo vec_to)) (vec_data vec_to)
                        (zip (vec_data vec_from) ist) |}.
Proof.
  intros (Hlen & Hrange & ->)%Scatter_create_Ok_inv Hf Ht Hlo.
  unfold scatter, scatter_values. simpl.
  rewrite Hf, Ht, Hlo, !Nat.eqb_refl, Z.eqb_refl. done.
Qed.

(** ** The reduced operators *)

Lemma createSubMatrix_Ok_inv (m : Mat A) isrow iscol m' :
  createSubMatrix zero m isrow iscol = Ok m' →
  Forall (λ g, index_in_range (mat_lo m) (mat_rows m) g = true) isrow
  ∧ Forall (λ g, index_in_range (mat_lo m) (mat_cols m) g = true) iscol
  ∧ mat_lo m' = 0
  ∧ mat_rows m' = length isrow
  ∧ mat_cols m' = length iscol
  ∧ ∀ i j r c, isrow !! i = Some r → iscol !! j = Some c →
      mat_at m' i j
      = mat_at m (local_pos (mat_lo m) r) (local_pos (mat_lo m) c).
Proof.
  unfold createSubMatrix.
  destruct (forallb _ isrow) eqn:Hrow; simpl; [|discriminate].
  destruct (forallb _ iscol) eqn:Hcol; simpl; [|discriminate].
  intros [= <-]. simpl. split_and!; try done.
  - by apply forallb_Forall_true.
  - by apply forallb_Forall_true.
  - by intros i j r c -> ->.
Qed.

Lemma createSubMatrix_Ok (m : Mat A) isrow iscol :
  Forall (λ g, mat_lo m ≤ g < mat_lo m + Z.of_nat (mat_rows m)) isrow →
  Forall (λ g, mat_lo m ≤ g < mat_lo m + Z.of_nat (mat_cols m)) iscol →
  ∃ m', createSubMatrix zero m isrow iscol = Ok m'.
Proof.
  intros Hrow Hcol. unfold createSubMatrix.
  assert (forallb (index_in_range (mat_lo m) (mat_rows m)) isrow = true) as ->.
  { apply forallb_Forall_true. eapply Forall_impl; [done|].
    intros g Hg. by apply index_in_range_spec. }
  assert (forallb (index_in_range (mat_lo m) (mat_cols m)) iscol = true) as ->.
  { apply forallb_Forall_true. eapply Forall_impl; [done|].
    intros g Hg. by apply index_in_range_spec. }
  simpl. by eexists.
Qed.

(** ** Shape of a selected index set *)

Lemma get_interior_index_set_Ok_inv (boundary_conditions : list (pyobj A))
    function_space interior :
  get_interior_index_set boundary_conditions function_space = Ok interior →
  ∃ bc_dofs,
    extend_bc_dofs boundary_conditions [] = Ok bc_dofs
    ∧ interior
      = filter (λ x, x ∉ bc_dofs)
          (seqZ (ownership_range function_space).1
             ((ownership_range function_space).2
              - (ownership_range function_space).1)).
Proof.
  unfold get_interior_index_set.
  destruct (extend_bc_dofs boundary_conditions []) as [dofs|] eqn:Hext; simpl;
    [|discriminate].
  destruct (ownership_range function_space) as [lo hi]. simpl.
  intros [= <-]. by exists dofs.
Qed.

Lemma get_interior_index_set_NoDup (boundary_conditions : list (pyobj A))
    function_space interior :
  get_interior_index_set boundary_conditions function_space = Ok interior →
  NoDup interior.
Proof.
  intros (dofs & _ & ->)%get_interior_index_set_Ok_inv.
  apply NoDup_filter, NoDup_seqZ.
Qed.

Lemma get_interior_index_set_range (boundary_conditions : list (pyobj A))
    function_space interior g :
  get_interior_index_set boundary_conditions function_space = Ok interior →
  g ∈ interior →
  (ownership_range function_space).1 ≤ g < (ownership_range function_space).2.
Proof.
  intros (dofs & _ & ->)%get_interior_index_set_Ok_inv.
  intros [_ Hg%elem_of_seqZ]%list_elem_of_filter. lia.
Qed.

Lemma Scatter_create_Ok (vec_from vec_to : Vec A) (ist : list Z) :
  length (vec_data vec_from) = length ist →
  Forall (λ g, vec_lo vec_to ≤ g
               < vec_lo vec_to + Z.of_nat (length (vec_data vec_to))) ist →
  Scatter_create vec_from None vec_to ist
  = Ok {| from_size := length (vec_data vec_from); is_from := None;
          to_lo := vec_lo vec_to; to_size := length (vec_data vec_to);
          is_to := ist |}.
Proof.
  intros Hlen Hrange. unfold Scatter_create.
  rewrite Hlen, Nat.eqb_refl. simpl.
  assert (forallb (index_in_range (vec_lo vec_to) (length (vec_data vec_to)))
            ist = true) as ->; [|done].
  apply forallb_Forall_true. eapply Forall_impl; [done|].
  intros g Hg. by apply index_in_range_spec.
Qed.

Lemma interior_in_layout (boundary_conditions : list (pyobj A)) Vs interior :
  get_interior_index_set boundary_conditions Vs = Ok interior →
  Forall (λ g, (ownership_range Vs).1 ≤ g
               < (ownership_range Vs).1 + Z.of_nat (local_size Vs)) interior.
Proof.
  intros His. apply Forall_forall. intros g Hg.
  pose proof (get_interior_index_set_range _ _ _ _ His Hg).
  unfold local_size. lia.
Qed.

(** ** The constructor *)

(** Everything a successful construction tells about the object. *)
Lemma EigenSolver_init_Ok_inv a_k a_m u bcs' opts prefix eng self :
  EigenSolver_init zero a_k a_m u bcs' opts prefix eng = Ok self →
  str_truthy prefix = false
  ∧ ∃ k m ist pr,
      self = {| slepc_options := Some (default default_slepc_options opts);
                V := Some (function_space u);
                bcs := Some (bcs_as_list bcs');
                K := Some k; M := Some m;
                index_set_not_bc := ist; projector := pr;
                E := Some (setOperators k m
                             (default (eigensolver_setup zero) eng));
                nev := None; nconv := None |}
      ∧ if list_truthy (bcs_as_list bcs')
        then ∃ interior sc,
               get_interior_index_set (bcs_as_list bcs') (function_space u)
               = Ok interior
               ∧ createSubMatrix zero a_k interior interior = Ok k
               ∧ createSubMatrix zero a_m interior interior = Ok m
               ∧ Scatter_create (createVecRight zero k) None (vector u)
                   interior = Ok sc
               ∧ ist = Some interior ∧ pr = Some sc
        else k = a_k ∧ m = a_m ∧ ist = None ∧ pr = None.
Proof.
  unfold EigenSolver_init.
  destruct (str_truthy prefix) eqn:Hprefix; simpl; [discriminate|].
  destruct (list_truthy (bcs_as_list bcs')) eqn:Hbcs; simpl.
  - unfold init_reduce; simpl.
    destruct (get_interior_index_set _ _) as [interior|] eqn:His; simpl;
      [|discriminate].
    destruct (createSubMatrix zero a_k _ _) as [k|] eqn:Hk; simpl;
      [|discriminate].
    destruct (createSubMatrix zero a_m _ _) as [m|] eqn:Hm; simpl;
      [|discriminate].
    destruct (Scatter_create _ _ _ _) as [sc|] eqn:Hsc; simpl; [|by destruct eng].
    intros Hself. split; [done|].
    exists k, m, (Some interior), (Some sc). split.
    + destruct eng; simpl in Hself; by injection Hself as <-.
    + by exists interior, sc.
  - intros Hself. split; [done|].
    exists a_k, a_m, None, None. split; [|done].
    destruct eng; simpl in Hself; by injection Hself as <-.
Qed.

(** With boundary conditions that are all Dirichlet conditions, no option
    prefix, and matrices and a function laid out on the function space, the
    constructor succeeds. *)
Lemma EigenSolver_init_Ok a_k a_m u bcs' B opts prefix eng :
  str_truthy prefix = false →
  bcs_as_list bcs' = DirichletBC <$> B →
  Mat_on (function_space u) a_k →
  Mat_on (function_space u) a_m →
  Vec_on (function_space u) (vector u) →
  ∃ self, EigenSolver_init zero a_k a_m u bcs' opts prefix eng = Ok self.
Proof.
  intros Hprefix Hbcs (Hk1 & Hk2 & Hk3) (Hm1 & Hm2 & Hm3) (Hu1 & Hu2).
  unfold EigenSolver_init. rewrite Hprefix. simpl. rewrite Hbcs.
  destruct (list_truthy (DirichletBC <$> B)); [|destruct eng; by eexists].
  unfold init_reduce. simpl.
  destruct (function_space u) as [[lo hi]] eqn:HV.
  pose proof (get_interior_index_set_DirichletBC B lo hi) as His.
  rewrite His. simpl.
  set (interior := filter _ _) in *.
  pose proof (interior_in_layout _ _ _ His) as Hin. simpl in *.
  destruct (createSubMatrix_Ok a_k interior interior) as [k Hk];
    [by rewrite Hk1, ?Hk2, ?Hk3..|].
  destruct (createSubMatrix_Ok a_m interior interior) as [m Hm];
    [by rewrite Hm1, ?Hm2, ?Hm3..|].
  rewrite Hk. simpl. rewrite Hm. simpl.
  rewrite Scatter_create_Ok.
  - simpl. destruct eng; by eexists.
  - apply createSubMatrix_Ok_inv in Hk as (_ & _ & _ & _ & Hcols & _).
    simpl. by rewrite length_replicate.
  - by rewrite Hu1, Hu2.
Qed.

(** C4. Given the interior index set, the constructor replaces each of the
    two assembled matrices by its principal submatrix on the interior rows
    and columns, in the order of the index set: both reduced matrices are
    square of dimension |interior|, entry (i, j) of each is the entry
    (interior[i], interior[j]) of the full matrix, and the same index set is
    used for K and for M. *)
Theorem reduced_operators_principal_submatrix a_k a_m u bcs' B opts prefix eng :
  str_truthy prefix = false →
  bcs_as_list bcs' = DirichletBC <$> B →
  B ≠ [] →
  Mat_on (function_space u) a_k →
  Mat_on (function_space u) a_m →
  Vec_on (function_space u) (vector u) →
  ∃ self interior k m,
    EigenSolver_init zero a_k a_m u bcs' opts prefix eng = Ok self
    ∧ get_interior_index_set (bcs_as_list bcs') (function_space u)
      = Ok interior
    ∧ index_set_not_bc self = Some interior
    ∧ K self = Some k ∧ M self = Some m
    ∧ mat_rows k = length interior ∧ mat_cols k = length interior
    ∧ mat_rows m = length interior ∧ mat_cols m = length interior
    ∧ ∀ i j r c, interior !! i = Some r → interior !! j = Some c →
        mat_at k i j
        = mat_at a_k (local_pos (mat_lo a_k) r) (local_pos (mat_lo a_k) c)
        ∧ mat_at m i j
          = mat_at a_m (local_pos (mat_lo a_m) r) (local_pos (mat_lo a_m) c).
Proof.
  intros Hprefix Hbcs HB Hk Hm Hu.
  destruct (EigenSolver_init_Ok a_k a_m u bcs' B opts prefix eng)
    as [self Hinit]; try done.
  exists self.
  apply EigenSolver_init_Ok_inv in Hinit as Hinv.
  destruct Hinv as (_ & k & m & ist & pr & -> & Hred).
  assert (list_truthy (bcs_as_list bcs') = true) as Htruthy.
  { rewrite Hbcs. by destruct B. }
  rewrite Htruthy in Hred.
  destruct Hred as (interior & sc & His & Hk' & Hm' & _ & -> & ->).
  exists interior, k, m.
  apply createSubMatrix_Ok_inv in Hk' as (_ & _ & _ & Hkr & Hkc & Hkat).
  apply createSubMatrix_Ok_inv in Hm' as (_ & _ & _ & Hmr & Hmc & Hmat).
  split_and!; try done.
  intros i j r c Hr Hc. split; [by apply Hkat|by apply Hmat].
Qed.

(** C1. For every reduced vector [v] of the configured reduced length and
    every full-space destination of the configured shape, the projector's
    scatter succeeds, copies [v[i]] to the position of [interior[i]] for
    every [i], and leaves every other position of the destination as it
    was; reading the interior positions back gives [v] again (for every
    destination, so in particular for a zero-initialised one). *)
Theorem projector_scatter_copies_interior a_k a_m u bcs' opts prefix eng self
    interior (v dest : Vec A) :
  EigenSolver_init zero a_k a_m u bcs' opts prefix eng = Ok self →
  list_truthy (bcs_as_list bcs') = true →
  get_interior_index_set (bcs_as_list bcs') (function_space u) = Ok interior →
  length (vec_data v) = length interior →
  length (vec_data dest) = length (vec_data (vector u)) →
  vec_lo dest = vec_lo (vector u) →
  ∃ sc dest',
    index_set_not_bc self = Some interior
    ∧ projector self = Some sc
    ∧ scatter zero sc v dest = Ok dest'
    ∧ vec_lo dest' = vec_lo dest
    ∧ length (vec_data dest') = length (vec_data dest)
    ∧ (∀ i g, interior !! i = Some g →
         vec_data dest' !! local_pos (vec_lo dest) g = vec_data v !! i)
    ∧ (∀ p, (∀ g, g ∈ interior → local_pos (vec_lo dest) g ≠ p) →
         vec_data dest' !! p = vec_data dest !! p)
    ∧ (λ g, vec_data dest' !! local_pos (vec_lo dest) g) <$> interior
      = Some <$> vec_data v.
Proof.
  intros Hinit Hbcs His Hv Hlen Hlo.
  apply EigenSolver_init_Ok_inv in Hinit as (_ & k & m & ist & pr & -> & Hred).
  rewrite Hbcs in Hred.
  destruct Hred as (interior' & sc & His' & Hk & _ & Hsc & -> & ->).
  assert (interior' = interior) as -> by congruence.
  pose proof (get_interior_index_set_NoDup _ _ _ His) as Hnd.
  pose proof (Scatter_create_Ok_inv _ _ _ _ Hsc) as (Hfrom & Hrange & _).
  assert (Hlook : ∀ i g, interior !! i = Some g →
            foldl (scatter_insert (vec_lo dest)) (vec_data dest)
              (zip (vec_data v) interior) !! local_pos (vec_lo dest) g
            = vec_data v !! i).
  { intros i g Hg.
    destruct (lookup_lt_is_Some_2 (vec_data v) i) as [x Hx].
    { rewrite Hv. by eapply lookup_lt_Some. }
    rewrite Hx. eapply scatter_fold_lookup; try done.
    by rewrite Hlen, Hlo. }
  exists sc,
    {| vec_lo := vec_lo dest;
       vec_data := foldl (scatter_insert (vec_lo dest)) (vec_data dest)
                     (zip (vec_data v) interior) |}.
  split_and!; try done.
  - eapply scatter_Ok; try done.
    by rewrite Hv, Hfrom.
  - simpl. apply scatter_fold_length.
  - simpl. intros p Hp. apply scatter_fold_frame.
    intros [x g] Hq%elem_of_zip_r. by apply Hp.
  - simpl. apply list_eq. intros i. rewrite !list_lookup_fmap.
    destruct (interior !! i) as [g|] eqn:Hg; simpl.
    + rewrite (Hlook i g Hg).
      destruct (lookup_lt_is_Some_2 (vec_data v) i) as [x Hx].
      { rewrite Hv. by eapply lookup_lt_Some. }
      by rewrite Hx.
    + apply lookup_ge_None in Hg. rewrite <-Hv in Hg.
      apply lookup_ge_None in Hg. by rewrite Hg.
Qed.

(** ** Options and solve *)

Lemma foldl_PETScOptions_set (w : world A) (items : list (string * optval)) :
  NoDup items.*1 →
  petsc_options (foldl PETScOptions_set w items)
  = list_to_map items ∪ petsc_options w
  ∧ functions (foldl PETScOptions_set w items) = functions w.
Proof.
  revert w. induction items as [|[opt value] items IH]; intros w Hnd; simpl.
  - by rewrite (left_id_L ∅ (∪)).
  - apply NoDup_cons in Hnd as [Hopt Hnd].
    destruct (IH (PETScOptions_set w (opt, value)) Hnd) as [-> ->].
    split; [|done]. simpl.
    apply map_eq. intros name.
    rewrite !lookup_union.
    destruct (decide (opt = name)) as [<-|Hne].
    + rewrite !lookup_insert_eq.
      rewrite (not_elem_of_list_to_map_1 _ opt) by done.
      by destruct (petsc_options w !! opt).
    + by rewrite !lookup_insert_ne.
Qed.

Lemma set_options_store (w : world A) (o : gmap string optval) :
  petsc_options (foldl PETScOptions_set w (map_to_list o))
  = o ∪ petsc_options w
  ∧ functions (foldl PETScOptions_set w (map_to_list o)) = functions w.
Proof.
  destruct (foldl_PETScOptions_set w (map_to_list o)) as [Hopts Hfun].
  { apply NoDup_fst_map_to_list. }
  split; [|done]. by rewrite Hopts, list_to_map_to_list.
Qed.

Lemma solve_eq (self : EigenSolver A) (w : world A) n_eig run e o :
  E self = Some e →
  slepc_options self = Some o →
  let w' := foldl PETScOptions_set w (map_to_list o) in
  let e' := EPS_solve run (configured n_eig (petsc_options w') e) in
  solve self w n_eig run
  = Ok (set_nconv (getConverged e') (set_nev (eps_nev e') (set_E e' self)),
        w', (getConverged e', getIterationNumber e')).
Proof.
  intros HE Ho. unfold solve, set_options. rewrite HE. simpl.
  rewrite Ho. done.
Qed.

(** C5, as the code has it. The mapping in effect is the caller's mapping
    when one is passed and the default [{'eps_max_it': 100}] only when none
    is passed.  [solve] writes every entry of the mapping in effect into the
    process-wide option store, keeps the entries of the store under other
    names, and the engine reads the resulting store before the iteration
    starts.  So a value of the caller overrides a stored value of the same
    name, and a name the caller's mapping omits keeps what the store held
    for it: the default 100 is set only when no mapping is passed. *)
Theorem solve_merges_options_in_effect a_k a_m u bcs' opts prefix eng self
    (w : world A) n_eig run :
  EigenSolver_init zero a_k a_m u bcs' opts prefix eng = Ok self →
  ∃ self' w' r e0 e',
    solve self w n_eig run = Ok (self', w', r)
    ∧ slepc_options self = Some (default default_slepc_options opts)
    ∧ petsc_options w'
      = default default_slepc_options opts ∪ petsc_options w
    ∧ E self = Some e0
    ∧ E self' = Some e'
    ∧ eps_options (configured n_eig (petsc_options w') e0) = petsc_options w'
    ∧ e' = EPS_solve run (configured n_eig (petsc_options w') e0)
    ∧ (opts = None →
       petsc_options w' !! "eps_max_it"%string = Some (OInt 100))
    ∧ (∀ user name, opts = Some user →
       petsc_options w' !! name
       = match user !! name with
         | Some value => Some value
         | None => petsc_options w !! name
         end).
Proof.
  intros Hinit.
  apply EigenSolver_init_Ok_inv in Hinit as (_ & k & m & ist & pr & -> & _).
  destruct (set_options_store w (default default_slepc_options opts))
    as [Hstore _].
  do 5 eexists. split_and!.
  - by apply solve_eq.
  - done.
  - done.
  - done.
  - done.
  - done.
  - done.
  - intros ->. rewrite Hstore. simpl. apply lookup_union_Some_l.
    unfold default_slepc_options. apply lookup_singleton_eq.
  - intros user name ->. rewrite Hstore. simpl.
    destruct (user !! name) as [value|] eqn:Huser.
    + by apply lookup_union_Some_l.
    + by apply lookup_union_r.
Qed.

(** ** Eigenpair retrieval *)

Lemma getEigenpair_out_of_range (e : EPS A) (i : Z) (Vr Vi : Vec A) :
  eps_solved e = true →
  Z.of_nat (getConverged e) ≤ i →
  getEigenpair e i Vr Vi = Err OutOfRange.
Proof.
  intros Hsolved Hi. unfold getEigenpair. rewrite Hsolved. simpl.
  rewrite bool_decide_eq_true_2; [done|]. by right.
Qed.

Lemma get_eigenpair_out_of_range (self : EigenSolver A) (w : world A) i
    Vs k e :
  V self = Some Vs → K self = Some k → E self = Some e →
  eps_solved e = true →
  Z.of_nat (getConverged e) ≤ i →
  get_eigenpair zero self w i = Err OutOfRange.
Proof.
  intros HV HK HE Hsolved Hi.
  unfold get_eigenpair, Function_alloc, createVecs.
  rewrite HV, HK, HE. simpl.
  by rewrite getEigenpair_out_of_range.
Qed.

(** C6. After a solve that reports [nconv] converged eigenpairs, every
    request for an index [i >= nconv] fails with OutOfRange instead of
    returning data; when nothing converged this holds for index 0. *)
Theorem get_eigenpair_beyond_nconv_fails a_k a_m u bcs' opts prefix eng self
    (w : world A) n_eig run :
  EigenSolver_init zero a_k a_m u bcs' opts prefix eng = Ok self →
  ∃ self' w' n its,
    solve self w n_eig run = Ok (self', w', (n, its))
    ∧ nconv self' = Some n
    ∧ (∀ (w'' : world A) (i : Z),
         Z.of_nat n ≤ i → get_eigenpair zero self' w'' i = Err OutOfRange)
    ∧ (n = 0%nat →
       ∀ w'' : world A, get_eigenpair zero self' w'' 0 = Err OutOfRange).
Proof.
  intros Hinit.
  apply EigenSolver_init_Ok_inv in Hinit as (_ & k & m & ist & pr & -> & _).
  do 4 eexists. split; [by apply solve_eq|].
  split_and!; [done| |].
  - intros w'' i Hi. by eapply get_eigenpair_out_of_range.
  - intros Hn w''. eapply get_eigenpair_out_of_range; try done.
    simpl in *. unfold getConverged in *. simpl in *. by rewrite Hn.
Qed.

(** ** Materialising an eigenpair *)

Lemma store_lookup_first {T} (fs : list T) a b :
  ((fs ++ [a]) ++ [b]) !! length fs = Some a.
Proof. rewrite <-(assoc_L (++)). by apply list_lookup_middle. Qed.

Lemma store_lookup_second {T} (fs : list T) a b c :
  ((fs ++ [a]) ++ [b]) !! length (fs ++ [c]) = Some b.
Proof.
  apply list_lookup_middle. by rewrite !length_app.
Qed.

Lemma store_insert_first {T} (fs : list T) a b a' :
  <[length fs := a']> ((fs ++ [a]) ++ [b]) = (fs ++ [a']) ++ [b].
Proof.
  rewrite <-!(assoc_L (++)). rewrite insert_app_r_alt by done.
  by rewrite Nat.sub_diag.
Qed.

Lemma store_insert_second {T} (fs : list T) a b c b' :
  <[length (fs ++ [c]) := b']> ((fs ++ [a]) ++ [b]) = fs ++ [a; b'].
Proof.
  rewrite insert_app_r_alt by (by rewrite !length_app).
  rewrite !length_app, Nat.sub_diag. simpl. by rewrite <-(assoc_L (++)).
Qed.

Lemma store_lookup_pair_second {T} (fs : list T) a b c :
  (fs ++ [a; b]) !! length (fs ++ [c]) = Some b.
Proof.
  rewrite length_app. simpl. rewrite lookup_app_r by lia.
  by replace (length fs + 1 - length fs)%nat with 1%nat by lia.
Qed.

Lemma scatter_to_function_Ok sc (v : Vec A) l (w : world A) f d :
  functions w !! l = Some f →
  scatter zero sc v (vector f) = Ok d →
  scatter_to_function zero sc v l w
  = Ok {| petsc_options := petsc_options w;
          functions := <[l := {| function_space := function_space f;
                                 vector := d |}]> (functions w) |}.
Proof.
  intros Hl Hd. unfold scatter_to_function. rewrite Hl. simpl.
  by rewrite Hd.
Qed.

(** The call with boundary conditions: two functions are appended to the
    store and each receives one scatter. *)
Lemma get_eigenpair_bcs_Ok (self : EigenSolver A) (w : world A) i Vs k e
    items sc eig v_r v_i d_r d_i :
  V self = Some Vs → K self = Some k → E self = Some e →
  bcs self = Some items → list_truthy items = true →
  projector self = Some sc →
  getEigenpair e i (createVecRight zero k) (createVecLeft zero k)
  = Ok (eig, v_r, v_i) →
  scatter zero sc v_r (vector (Function_new zero Vs)) = Ok d_r →
  scatter zero sc v_i (vector (Function_new zero Vs)) = Ok d_i →
  get_eigenpair zero self w i
  = Ok ({| petsc_options := petsc_options w;
           functions := functions w
                        ++ [ {| function_space := Vs; vector := d_r |};
                             {| function_space := Vs; vector := d_i |} ] |},
        (eig, length (functions w), length (functions w ++ [Function_new zero Vs]))).
Proof.
  intros HV HK HE Hbcs Htruthy Hsc Hpair Hr Hi.
  unfold get_eigenpair, Function_alloc, createVecs.
  rewrite HV, HK, HE. simpl. rewrite Hpair. simpl.
  rewrite Hbcs. simpl. rewrite Htruthy, Hsc. simpl.
  erewrite scatter_to_function_Ok; [|apply store_lookup_first|done]. simpl.
  rewrite store_insert_first.
  erewrite scatter_to_function_Ok; [|apply store_lookup_second|done]. simpl.
  by rewrite store_insert_second.
Qed.

(** The call without boundary conditions: two functions are appended to the
    store and nothing is written to them. *)
Lemma get_eigenpair_no_bcs_Ok (self : EigenSolver A) (w : world A) i Vs k e
    eig v_r v_i :
  V self = Some Vs → K self = Some k → E self = Some e →
  bcs self = Some [] →
  getEigenpair e i (createVecRight zero k) (createVecLeft zero k)
  = Ok (eig, v_r, v_i) →
  get_eigenpair zero self w i
  = Ok ({| petsc_options := petsc_options w;
           functions := (functions w ++ [Function_new zero Vs])
                        ++ [Function_new zero Vs] |},
        (eig, length (functions w), length (functions w ++ [Function_new zero Vs]))).
Proof.
  intros HV HK HE Hbcs Hpair.
  unfold get_eigenpair, Function_alloc, createVecs.
  rewrite HV, HK, HE. simpl. rewrite Hpair. simpl.
  by rewrite Hbcs.
Qed.

Lemma getEigenpair_Ok (e : EPS A) (i : Z) (Vr Vi : Vec A) eig xr xi :
  eps_solved e = true →
  0 ≤ i →
  eps_pairs e !! Z.to_nat i = Some (eig, xr, xi) →
  length xr = length (vec_data Vr) →
  length xi = length (vec_data Vi) →
  getEigenpair e i Vr Vi
  = Ok (eig, {| vec_lo := vec_lo Vr; vec_data := xr |},
             {| vec_lo := vec_lo Vi; vec_data := xi |}).
Proof.
  intros Hsolved Hi Hpair Hr Hi'. unfold getEigenpair.
  rewrite Hsolved. simpl.
  rewrite bool_decide_eq_false_2.
  - by rewrite Hpair, Hr, Hi', !Nat.eqb_refl.
  - apply lookup_lt_Some in Hpair. unfold getConverged, eigenpair in *. lia.
Qed.

(** A scatter into a fresh function: zero wherever no index points. *)
Lemma scatter_fresh_zero lo n (xs : list A) (idx : list Z) g :
  Forall (λ g', lo ≤ g') idx →
  lo ≤ g < lo + Z.of_nat n → g ∉ idx →
  foldl (scatter_insert lo) (replicate n zero) (zip xs idx)
    !! local_pos lo g = Some zero.
Proof.
  intros Hidx Hg Hnot. rewrite scatter_fold_frame.
  - apply lookup_replicate_2. unfold local_pos. lia.
  - intros [x g'] Hq%elem_of_zip_r. simpl in *. intros Heq.
    apply local_pos_inj in Heq; [by subst| |lia].
    by eapply Forall_forall in Hidx.
Qed.

(** C10. With boundary conditions present, every call of [get_eigenpair]
    allocates two new zero-initialised functions and scatters into them:
    the functions returned are none of those that existed before the call
    and are distinct from each other, the functions that existed before are
    left as they were, and in both returned functions every DOF of the
    ownership range outside the interior index set is exactly zero, while
    the interior DOFs carry the eigenvector. *)
Theorem get_eigenpair_fresh_zero_at_constrained a_k a_m u bcs' opts prefix eng
    self (w : world A) n_eig run self' w' r interior e i eig xr xi
    (w2 : world A) :
  EigenSolver_init zero a_k a_m u bcs' opts prefix eng = Ok self →
  list_truthy (bcs_as_list bcs') = true →
  Vec_on (function_space u) (vector u) →
  get_interior_index_set (bcs_as_list bcs') (function_space u) = Ok interior →
  solve self w n_eig run = Ok (self', w', r) →
  E self' = Some e →
  0 ≤ i →
  eps_pairs e !! Z.to_nat i = Some (eig, xr, xi) →
  length xr = length interior →
  length xi = length interior →
  ∃ w3 u_r u_im f_r f_im,
    get_eigenpair zero self' w2 i = Ok (w3, (eig, u_r, u_im))
    ∧ (length (functions w2) ≤ u_r)%nat
    ∧ (length (functions w2) ≤ u_im)%nat
    ∧ u_r ≠ u_im
    ∧ (∀ l f, functions w2 !! l = Some f → functions w3 !! l = Some f)
    ∧ functions w3 !! u_r = Some f_r
    ∧ functions w3 !! u_im = Some f_im
    ∧ length (vec_data (vector f_r)) = local_size (function_space u)
    ∧ length (vec_data (vector f_im)) = local_size (function_space u)
    ∧ (∀ g, (ownership_range (function_space u)).1 ≤ g
            < (ownership_range (function_space u)).2 →
            g ∉ interior →
            vec_data (vector f_r)
              !! local_pos (ownership_range (function_space u)).1 g
            = Some zero
            ∧ vec_data (vector f_im)
                !! local_pos (ownership_range (function_space u)).1 g
              = Some zero)
    ∧ (∀ j g, interior !! j = Some g →
            vec_data (vector f_r)
              !! local_pos (ownership_range (function_space u)).1 g
            = xr !! j
            ∧ vec_data (vector f_im)
                !! local_pos (ownership_range (function_space u)).1 g
              = xi !! j).
Proof.
  intros Hinit Hbcs [Hulo Hulen] His Hsolve HE Hi Hpair Hxr Hxi.
  apply EigenSolver_init_Ok_inv in Hinit as (_ & k & m & ist & pr & -> & Hred).
  rewrite Hbcs in Hred.
  destruct Hred as (interior' & sc & His' & Hk & _ & Hsc & -> & ->).
  assert (interior' = interior) as -> by congruence.
  erewrite solve_eq in Hsolve by done. injection Hsolve as <- <- <-.
  simpl in HE. injection HE as <-.
  apply createSubMatrix_Ok_inv in Hk as (_ & _ & Hklo & Hkr & Hkc & _).
  pose proof (get_interior_index_set_NoDup _ _ _ His) as Hnd.
  pose proof (Scatter_create_Ok_inv _ _ _ _ Hsc) as (_ & Hrange & _).
  pose proof (interior_in_layout _ _ _ His) as Hlay.
  set (V0 := function_space u) in *.
  set (lo := (ownership_range V0).1) in *.
  set (d := λ xs : list A,
         {| vec_lo := lo;
            vec_data := foldl (scatter_insert lo)
                          (replicate (local_size V0) zero)
                          (zip xs interior) |}).
  assert (Hscat : ∀ xs vlo, length xs = length interior →
            scatter zero sc {| vec_lo := vlo; vec_data := xs |}
              (vector (Function_new zero V0)) = Ok (d xs)).
  { intros xs vlo Hxs. erewrite scatter_Ok; try done; simpl.
    - by rewrite length_replicate, Hxs, Hkc.
    - by rewrite length_replicate, Hulen. }
  assert (Hrange' : Forall (λ g, index_in_range lo
                      (length (replicate (local_size V0) zero)) g = true)
                      interior).
  { rewrite length_replicate. eapply Forall_impl; [exact Hlay|].
    intros g Hg. by apply index_in_range_spec. }
  assert (Hval : ∀ xs j g, length xs = length interior →
            interior !! j = Some g →
            vec_data (d xs) !! local_pos lo g = xs !! j).
  { intros xs j g Hxs Hg. simpl.
    destruct (lookup_lt_is_Some_2 xs j) as [x Hx].
    { rewrite Hxs. by eapply lookup_lt_Some. }
    rewrite Hx. by eapply scatter_fold_lookup. }
  assert (Hzero : ∀ xs g, lo ≤ g < (ownership_range V0).2 → g ∉ interior →
            vec_data (d xs) !! local_pos lo g = Some zero).
  { intros xs g Hg Hnot. simpl. apply scatter_fresh_zero; [|..|done].
    - eapply Forall_impl; [exact Hlay|]. simpl. intros; lia.
    - unfold local_size. fold lo. lia. }
  eexists _, _, _, {| function_space := V0; vector := d xr |},
    {| function_space := V0; vector := d xi |}.
  split_and!.
  - eapply get_eigenpair_bcs_Ok; try done.
    + apply getEigenpair_Ok; try done; simpl.
      * by rewrite length_replicate, Hxr, Hkc.
      * by rewrite length_replicate, Hxi, Hkr.
    + by apply Hscat.
    + by apply Hscat.
  - done.
  - rewrite length_app. lia.
  - rewrite length_app. simpl. lia.
  - simpl. intros l f Hl. rewrite lookup_app_l; [done|].
    by eapply lookup_lt_Some.
  - simpl. by apply list_lookup_middle.
  - simpl. apply store_lookup_pair_second.
  - simpl. by rewrite scatter_fold_length, length_replicate.
  - simpl. by rewrite scatter_fold_length, length_replicate.
  - intros g Hg Hnot. split; by apply Hzero.
  - intros j g Hg. split; by apply Hval.
Qed.

(** ** Arguments of the constructor *)

Lemma str_truthy_Some (s : string) :
  str_truthy (Some s) = true ↔ s ≠ EmptyString.
Proof. destruct s; simpl; split; congruence. Qed.

Lemma bcs_as_list_nil (bcs' : bcs_arg A) :
  list_truthy (bcs_as_list bcs') = false ↔ bcs' = BcsList [].
Proof.
  destruct bcs' as [[|o items]|o]; simpl; split; congruence.
Qed.

(** C8. Leaving [bcs] at its default [None] does not take the unconstrained
    path: [None] is wrapped into the list [[None]], which is truthy and is
    handed to the interior DOF selection, where the call of
    [get_boundary_values] on [None] fails, so the construction fails.  A
    construction that succeeds took the unconstrained path (no index set, no
    projector, full matrices) exactly when [bcs] was the empty list, and
    with the empty list it does succeed. *)
Theorem init_default_bcs_is_not_unconstrained a_k a_m u opts prefix eng :
  bcs_as_list (BcsObj PyNone) = [PyNone : pyobj A]
  ∧ list_truthy [PyNone : pyobj A] = true
  ∧ get_interior_index_set [PyNone : pyobj A] (function_space u)
    = Err AttributeError
  ∧ EigenSolver_init zero a_k a_m u (BcsObj PyNone) opts prefix eng
    = Err AttributeError
  ∧ (∀ bcs' self,
       EigenSolver_init zero a_k a_m u bcs' opts prefix eng = Ok self →
       (index_set_not_bc self = None ∧ projector self = None
        ∧ K self = Some a_k ∧ M self = Some a_m)
       ↔ bcs' = BcsList [])
  ∧ (str_truthy prefix = false →
     ∃ self,
       EigenSolver_init zero a_k a_m u (BcsList []) opts prefix eng = Ok self
       ∧ bcs self = Some []).
Proof.
  split_and!; try done.
  - unfold EigenSolver_init.
    destruct (str_truthy prefix); simpl; [done|].
    unfold init_reduce. simpl. done.
  - intros bcs' self Hinit.
    apply EigenSolver_init_Ok_inv in Hinit as (_ & k & m & ist & pr & -> & Hred).
    rewrite <-bcs_as_list_nil. simpl.
    destruct (list_truthy (bcs_as_list bcs')).
    + destruct Hred as (interior & sc & _ & _ & _ & _ & -> & ->).
      split; [by intros ([=] & _)|done].
    + destruct Hred as (-> & -> & -> & ->). done.
  - intros Hprefix. unfold EigenSolver_init. rewrite Hprefix. simpl.
    destruct eng; by eexists.
Qed.

(** C9, as the code has it. The constructor tests the truthiness of
    [option_prefix]: with any non-empty prefix it reads [self.E] before an
    eigensolver has been assigned (also when one is passed in) and fails
    with an AttributeError, whatever the other arguments are; the empty
    string is falsy and is treated like [None]. *)
Theorem init_nonempty_prefix_fails a_k a_m u bcs' opts (s : string) eng :
  s ≠ EmptyString →
  EigenSolver_init zero a_k a_m u bcs' opts (Some s) eng = Err AttributeError.
Proof.
  intros Hs%str_truthy_Some. unfold EigenSolver_init. by rewrite Hs.
Qed.

(** * Further properties of the code *)

(** ** Interior DOF selection: edge cases and composition *)

Lemma filter_all {T} (P : T → Prop) `{∀ x, Decision (P x)} (l : list T) :
  (∀ x, x ∈ l → P x) → filter P l = l.
Proof.
  induction l as [|x l IH]; intros HP; [done|].
  rewrite filter_cons_True by (apply HP; left).
  f_equal. apply IH. intros y Hy. apply HP. by right.
Qed.

(** X1. With no boundary condition the selection returns the whole
    ownership range, in order; it is empty when the range is. *)
Theorem interior_index_set_no_conditions lo hi :
  get_interior_index_set ([] : list (pyobj A))
    {| ownership_range := (lo, hi) |} = Ok (seqZ lo (hi - lo))
  ∧ (hi ≤ lo →
     ∀ boundary_conditions : list (pyobj A),
       get_interior_index_set boundary_conditions
         {| ownership_range := (lo, hi) |} = Ok []
       ∨ get_interior_index_set boundary_conditions
           {| ownership_range := (lo, hi) |} = Err AttributeError).
Proof.
  split.
  - pose proof (get_interior_index_set_DirichletBC [] lo hi) as Hnil.
    simpl in Hnil. rewrite Hnil.
    f_equal. apply filter_all. intros x _. apply not_elem_of_nil.
  - intros Hle boundary_conditions.
    destruct (get_interior_index_set boundary_conditions _) as [interior|e]
      eqn:His.
    + left. apply get_interior_index_set_Ok_inv in His as (dofs & _ & ->).
      simpl. by rewrite seqZ_nil by lia.
    + right. by apply get_interior_index_set_error in His as ->.
Qed.

(** The keys collected by the loop, whatever the elements are. *)
Lemma extend_bc_dofs_Ok_elem (l : list (pyobj A)) acc dofs x :
  extend_bc_dofs l acc = Ok dofs →
  x ∈ dofs ↔ x ∈ acc ∨ ∃ vals, DirichletBC vals ∈ l ∧ is_Some (vals !! x).
Proof.
  revert acc. induction l as [|o l IH]; intros acc; simpl.
  - intros [= <-]. split; [by left|]. intros [?|(vals & ?%elem_of_nil & _)];
      done.
  - destruct o as [|vals0|]; simpl; [discriminate| |discriminate].
    intros Hext. rewrite (IH _ Hext), elem_of_app, elem_of_keys, elem_of_dom.
    split.
    + intros [[?|?]|(vals & Hin & Hx)]; [by left| |].
      * right. exists vals0. split; [left|done].
      * right. exists vals. split; [by right|done].
    + intros [?|(vals & Hin & Hx)]; [by left; left|].
      apply elem_of_cons in Hin as [[= ->]|Hin]; [by left; right|].
      right. by exists vals.
Qed.

Lemma extend_bc_dofs_Ok_iff (l : list (pyobj A)) acc :
  (∃ dofs, extend_bc_dofs l acc = Ok dofs)
  ↔ Forall (λ o, ∃ vals, o = DirichletBC vals) l.
Proof.
  revert acc. induction l as [|o l IH]; intros acc; simpl.
  - split; [constructor|by eexists].
  - rewrite Forall_cons. destruct o as [|vals|]; simpl.
    + split; [by intros [? ?]|by intros [[? ?] _]].
    + rewrite IH. split; [|by intros [_ ?]]. intros Hl. split; [by eexists|done].
    + split; [by intros [? ?]|by intros [[? ?] _]].
Qed.

Lemma extend_bc_dofs_Err_elem (l : list (pyobj A)) acc e :
  extend_bc_dofs l acc = Err e →
  ∃ o, o ∈ l ∧ ∀ vals, o ≠ DirichletBC vals.
Proof.
  revert acc. induction l as [|o l IH]; intros acc; simpl; [discriminate|].
  destruct o as [|vals0|]; simpl.
  - intros _. exists PyNone. split; [left|done].
  - intros (o & Hin & Ho)%IH. exists o. split; [by right|done].
  - intros _. exists PyOther. split; [left|done].
Qed.

(** X2. The selection succeeds exactly when every element of the list is a
    Dirichlet condition; one element without [get_boundary_values], at any
    position, makes the whole call fail with AttributeError. *)
Theorem interior_index_set_succeeds_iff (boundary_conditions : list (pyobj A))
    function_space :
  ((∃ interior,
      get_interior_index_set boundary_conditions function_space = Ok interior)
   ↔ Forall (λ o, ∃ vals, o = DirichletBC vals) boundary_conditions)
  ∧ (get_interior_index_set boundary_conditions function_space
     = Err AttributeError
     ↔ ∃ o, o ∈ boundary_conditions ∧ ∀ vals, o ≠ DirichletBC vals).
Proof.
  assert (Hok : (∃ interior,
             get_interior_index_set boundary_conditions function_space
             = Ok interior)
          ↔ Forall (λ o, ∃ vals, o = DirichletBC vals) boundary_conditions).
  { rewrite <-(extend_bc_dofs_Ok_iff _ []). unfold get_interior_index_set.
    destruct (extend_bc_dofs boundary_conditions []) as [dofs|e]; simpl.
    - destruct (ownership_range function_space). split; by eexists.
    - split; by intros [? ?]. }
  split; [done|]. split.
  - unfold get_interior_index_set.
    destruct (extend_bc_dofs boundary_conditions []) as [dofs|e] eqn:Hext;
      simpl.
    + by destruct (ownership_range function_space).
    + intros _. by eapply extend_bc_dofs_Err_elem.
  - intros (o & Hin & Ho).
    destruct (get_interior_index_set boundary_conditions function_space)
      as [interior|e] eqn:His.
    + assert (Hall : Forall (λ o, ∃ vals, o = DirichletBC vals)
                       boundary_conditions) by (apply Hok; by eexists).
      rewrite Forall_forall in Hall. destruct (Hall o Hin) as [vals Heq].
      by destruct (Ho vals).
    + by apply get_interior_index_set_error in His as ->.
Qed.

(** X3. The result depends on the list of conditions only through its
    elements: reordering the conditions or repeating one changes
    neither the index set nor the failure. *)
Theorem interior_index_set_same_elements (l l' : list (pyobj A))
    function_space :
  (∀ o, o ∈ l ↔ o ∈ l') →
  get_interior_index_set l function_space
  = get_interior_index_set l' function_space.
Proof.
  intros Hsame.
  assert (Hall : Forall (λ o : pyobj A, ∃ vals, o = DirichletBC vals) l
                 ↔ Forall (λ o : pyobj A, ∃ vals, o = DirichletBC vals) l').
  { rewrite !Forall_forall. by setoid_rewrite Hsame. }
  rewrite <-!(extend_bc_dofs_Ok_iff _ []) in Hall.
  unfold get_interior_index_set.
  destruct (extend_bc_dofs l []) as [dofs|e] eqn:Hl;
    destruct (extend_bc_dofs l' []) as [dofs'|e'] eqn:Hl'; simpl.
  - destruct (ownership_range function_space) as [lo hi]. f_equal.
    apply list_filter_iff. intros x.
    rewrite (extend_bc_dofs_Ok_elem _ _ _ x Hl),
      (extend_bc_dofs_Ok_elem _ _ _ x Hl').
    by setoid_rewrite Hsame.
  - destruct Hall as [Hall _]. destruct Hall as [? ?]; [by eexists|done].
  - destruct Hall as [_ Hall]. destruct Hall as [? ?]; [by eexists|done].
  - apply extend_bc_dofs_error in Hl as ->.
    by apply extend_bc_dofs_error in Hl' as ->.
Qed.

(** X4. One more Dirichlet condition at the end of the list removes exactly
    its keys from the interior index set and keeps the order of the rest. *)
Theorem interior_index_set_add_condition (l : list (pyobj A))
    (vals : gmap Z A) function_space interior :
  get_interior_index_set l function_space = Ok interior →
  get_interior_index_set (l ++ [DirichletBC vals]) function_space
  = Ok (filter (λ x, x ∉ dom vals) interior).
Proof.
  intros (dofs & Hl & ->)%get_interior_index_set_Ok_inv.
  assert (Hext : extend_bc_dofs (l ++ [DirichletBC vals]) []
                 = Ok (dofs ++ keys vals)).
  { revert Hl. generalize ([] : list Z) as acc.
    induction l as [|o l IH]; intros acc; simpl.
    - by intros [= <-].
    - destruct o; simpl; [discriminate|apply IH|discriminate]. }
  unfold get_interior_index_set. rewrite Hext. simpl.
  destruct (ownership_range function_space) as [lo hi]. simpl. f_equal.
  rewrite list_filter_filter. apply list_filter_iff. intros x.
  rewrite elem_of_app, elem_of_keys. tauto.
Qed.

(** ** The constructor and solve *)

(** X5. The engine of a constructed solver has as operators exactly the
    matrices kept in [self.K] and [self.M].  When no engine is passed it is
    a Krylov-Schur engine for a generalized Hermitian problem, selecting by
    target magnitude with target zero and shift-and-invert; an engine that
    is passed in keeps all its own settings. *)
Theorem init_engine_wiring a_k a_m u bcs' opts prefix eng self :
  EigenSolver_init zero a_k a_m u bcs' opts prefix eng = Ok self →
  ∃ e k m,
    E self = Some e ∧ K self = Some k ∧ M self = Some m
    ∧ eps_operators e = Some (k, m)
    ∧ (eng = None →
       eps_type e = KRYLOVSCHUR ∧ eps_problem_type e = GHEP
       ∧ eps_which e = TARGET_MAGNITUDE ∧ eps_target e = Some zero
       ∧ eps_st_type e = SINVERT)
    ∧ (∀ e0, eng = Some e0 →
       eps_type e = eps_type e0 ∧ eps_problem_type e = eps_problem_type e0
       ∧ eps_which e = eps_which e0 ∧ eps_target e = eps_target e0
       ∧ eps_st_type e = eps_st_type e0 ∧ eps_prefix e = eps_prefix e0
       ∧ eps_nev e = eps_nev e0 ∧ eps_options e = eps_options e0).
Proof.
  intros (_ & k & m & ist & pr & -> & _)%EigenSolver_init_Ok_inv.
  eexists _, k, m. split_and!; try done.
  - by intros ->.
  - by intros e0 ->.
Qed.

Lemma solve_Ok_inv (self : EigenSolver A) (w : world A) n_eig run self' w' r :
  solve self w n_eig run = Ok (self', w', r) →
  ∃ e o, E self = Some e ∧ slepc_options self = Some o.
Proof.
  unfold solve, set_options.
  destruct (E self) as [e|]; simpl; [|discriminate].
  destruct (slepc_options self) as [o|]; simpl; [|discriminate].
  intros _. by exists e, o.
Qed.


(** X7. Options written by one solve stay in the process-wide store: after
    a solve of one solver and then a solve of another (or of the same
    one), the store holds the second mapping over the first over what was
    there before, so an option of the first mapping that the second one
    does not name is still in effect and is read by the second engine. *)
Theorem options_persist_across_solves (self1 self2 : EigenSolver A)
    (w w1 w2 : world A) n1 n2 run1 run2 s1 s2 r1 r2 o1 o2 :
  slepc_options self1 = Some o1 →
  slepc_options self2 = Some o2 →
  solve self1 w n1 run1 = Ok (s1, w1, r1) →
  solve self2 w1 n2 run2 = Ok (s2, w2, r2) →
  petsc_options w2 = o2 ∪ (o1 ∪ petsc_options w)
  ∧ ∀ name value,
      o1 !! name = Some value → o2 !! name = None →
      petsc_options w2 !! name = Some value
      ∧ ∃ e2, E s2 = Some e2 ∧ eps_options e2 !! name = Some value.
Proof.
  intros Ho1 Ho2 Hs1 Hs2.
  destruct (solve_Ok_inv _ _ _ _ _ _ _ Hs1) as (e1 & o1' & HE1 & Ho1').
  destruct (solve_Ok_inv _ _ _ _ _ _ _ Hs2) as (e2 & o2' & HE2 & Ho2').
  assert (o1' = o1) as -> by congruence.
  assert (o2' = o2) as -> by congruence.
  rewrite (solve_eq _ _ _ _ e1 o1) in Hs1 by done. injection Hs1 as <- <- <-.
  rewrite (solve_eq _ _ _ _ e2 o2) in Hs2 by done. injection Hs2 as <- <- <-.
  destruct (set_options_store w o1) as [Hw1 _].
  destruct (set_options_store (foldl PETScOptions_set w (map_to_list o1)) o2)
    as [Hw2 _].
  rewrite Hw1 in Hw2.
  split; [done|]. intros name value Hname Hnone.
  assert (Hlook : (o2 ∪ (o1 ∪ petsc_options w)) !! name = Some value).
  { rewrite lookup_union_r by done. by apply lookup_union_Some_l. }
  split; [by rewrite Hw2|].
  eexists. split; [done|]. simpl. by rewrite Hw2.
Qed.

(** X14. When the boundary conditions fix every DOF of the ownership range,
    the construction still succeeds: the interior index set is empty and
    both reduced operators are 0 x 0. *)
Theorem init_all_constrained a_k a_m u bcs' B opts prefix eng :
  str_truthy prefix = false →
  bcs_as_list bcs' = DirichletBC <$> B →
  B ≠ [] →
  Mat_on (function_space u) a_k →
  Mat_on (function_space u) a_m →
  Vec_on (function_space u) (vector u) →
  (∀ x, (ownership_range (function_space u)).1 ≤ x
        < (ownership_range (function_space u)).2 →
        ∃ b, b ∈ B ∧ is_Some (b !! x)) →
  ∃ self k m sc,
    EigenSolver_init zero a_k a_m u bcs' opts prefix eng = Ok self
    ∧ index_set_not_bc self = Some []
    ∧ K self = Some k ∧ M self = Some m
    ∧ mat_rows k = 0%nat ∧ mat_cols k = 0%nat
    ∧ mat_rows m = 0%nat ∧ mat_cols m = 0%nat
    ∧ projector self = Some sc ∧ from_size sc = 0%nat ∧ is_to sc = [].
Proof.
  intros Hprefix Hbcs HB Hk Hm Hu Hall.
  destruct (EigenSolver_init_Ok a_k a_m u bcs' B opts prefix eng)
    as [self Hinit]; try done.
  exists self.
  apply EigenSolver_init_Ok_inv in Hinit as Hinv.
  destruct Hinv as (_ & k & m & ist & pr & -> & Hred).
  assert (list_truthy (bcs_as_list bcs') = true) as Htruthy.
  { rewrite Hbcs. by destruct B. }
  rewrite Htruthy in Hred.
  destruct Hred as (interior & sc & His & Hk' & Hm' & Hsc & -> & ->).
  assert (interior = []) as ->.
  { rewrite Hbcs in His. destruct (function_space u) as [[lo hi]].
    rewrite get_interior_index_set_DirichletBC in His. injection His as <-.
    apply elem_of_nil_inv. intros x [Hr Hnone]%elem_of_interior.
    destruct (Hall x Hr) as (b & Hb & [v Hv]).
    specialize (Hnone b Hb). congruence. }
  apply createSubMatrix_Ok_inv in Hk' as (_ & _ & _ & Hkr & Hkc & _).
  apply createSubMatrix_Ok_inv in Hm' as (_ & _ & _ & Hmr & Hmc & _).
  apply Scatter_create_Ok_inv in Hsc as (Hfrom & _ & ->).
  exists k, m. eexists. split_and!; try done.
Qed.

(** ** get_eigenpair and the store of functions *)

(** Whether a call fails, and what it returns, does not depend on the store
    it runs in: it either fails in every store with the same error, or in
    every store appends the same two functions and returns their
    positions. *)
Lemma get_eigenpair_uniform (self : EigenSolver A) (i : Z) :
  (∃ e, ∀ w : world A, get_eigenpair zero self w i = Err e)
  ∨ (∃ eig f_r f_im, ∀ w : world A,
       get_eigenpair zero self w i
       = Ok ({| petsc_options := petsc_options w;
                functions := functions w ++ [f_r; f_im] |},
             (eig, length (functions w), S (length (functions w))))).
Proof.
  destruct (V self) as [Vs|] eqn:HV.
  2: { left. exists AttributeError. intros w.
       unfold get_eigenpair. by rewrite HV. }
  destruct (K self) as [k|] eqn:HK.
  2: { left. exists AttributeError. intros w.
       unfold get_eigenpair, Function_alloc. rewrite HV. simpl.
       by rewrite HK. }
  destruct (E self) as [e|] eqn:HE.
  2: { left. exists AttributeError. intros w.
       unfold get_eigenpair, Function_alloc, createVecs. rewrite HV. simpl.
       rewrite HK. simpl. by rewrite HE. }
  destruct (getEigenpair e i (createVecRight zero k) (createVecLeft zero k))
    as [[[eig v_r] v_i]|err] eqn:Hpair.
  2: { left. exists err. intros w.
       unfold get_eigenpair, Function_alloc, createVecs. rewrite HV. simpl.
       rewrite HK. simpl. rewrite HE. simpl. by rewrite Hpair. }
  destruct (bcs self) as [items|] eqn:Hbcs.
  2: { left. exists AttributeError. intros w.
       unfold get_eigenpair, Function_alloc, createVecs. rewrite HV. simpl.
       rewrite HK. simpl. rewrite HE. simpl. rewrite Hpair. simpl.
       by rewrite Hbcs. }
  destruct (list_truthy items) eqn:Htruthy.
  - destruct (projector self) as [sc|] eqn:Hsc.
    2: { left. exists AttributeError. intros w.
         unfold get_eigenpair, Function_alloc, createVecs. rewrite HV. simpl.
         rewrite HK. simpl. rewrite HE. simpl. rewrite Hpair. simpl.
         rewrite Hbcs. simpl. rewrite Htruthy. by rewrite Hsc. }
    destruct (scatter zero sc v_r (vector (Function_new zero Vs)))
      as [d_r|e_r] eqn:Hr.
    2: { left. exists e_r. intros w. simpl in Hr.
         unfold get_eigenpair, Function_alloc, createVecs, scatter_to_function.
         rewrite HV. simpl. rewrite HK. simpl. rewrite HE. simpl.
         rewrite Hpair. simpl. rewrite Hbcs. simpl. rewrite Htruthy, Hsc.
         simpl. rewrite store_lookup_first. simpl. by rewrite Hr. }
    destruct (scatter zero sc v_i (vector (Function_new zero Vs)))
      as [d_i|e_i] eqn:Hi.
    2: { left. exists e_i. intros w. simpl in Hr, Hi.
         unfold get_eigenpair, Function_alloc, createVecs, scatter_to_function.
         rewrite HV. simpl. rewrite HK. simpl. rewrite HE. simpl.
         rewrite Hpair. simpl. rewrite Hbcs. simpl. rewrite Htruthy, Hsc.
         simpl. rewrite store_lookup_first. simpl. rewrite Hr. simpl.
         rewrite store_insert_first, store_lookup_second. simpl.
         by rewrite Hi. }
    right. eexists eig, _, _. intros w.
    erewrite get_eigenpair_bcs_Ok by done.
    by rewrite length_app, Nat.add_1_r.
  - destruct items; [|done].
    right. exists eig, (Function_new zero Vs), (Function_new zero Vs).
    intros w. erewrite get_eigenpair_no_bcs_Ok by done.
    by rewrite length_app, Nat.add_1_r, <-(assoc_L (++)).
Qed.

(** X8. A successful [get_eigenpair] leaves the option store and every
    function that existed before as they were, appends exactly two
    functions to the store, and returns the positions of these two. *)
Theorem get_eigenpair_store_frame (self : EigenSolver A) (w w' : world A) i
    eig u_r u_im :
  get_eigenpair zero self w i = Ok (w', (eig, u_r, u_im)) →
  petsc_options w' = petsc_options w
  ∧ length (functions w') = (length (functions w) + 2)%nat
  ∧ take (length (functions w)) (functions w') = functions w
  ∧ u_r = length (functions w)
  ∧ u_im = S (length (functions w)).
Proof.
  intros Hcall.
  destruct (get_eigenpair_uniform self i) as [[e He]|(eig' & f_r & f_im & Hok)].
  - rewrite He in Hcall. discriminate.
  - rewrite Hok in Hcall. injection Hcall as <- <- <- <-. simpl.
    split_and!; try done.
    + rewrite length_app. done.
    + by rewrite take_app_length.
Qed.

(** X9. Results are not cached or shared: when a call succeeds, a second call
    with the same index succeeds too, returns the same eigenvalue and two
    further functions, distinct from the first two, that hold the same
    values; the first two functions are left as they were. *)
Theorem get_eigenpair_repeat (self : EigenSolver A) (w w1 : world A) i
    eig u_r u_im :
  get_eigenpair zero self w i = Ok (w1, (eig, u_r, u_im)) →
  ∃ w2,
    get_eigenpair zero self w1 i
    = Ok (w2, (eig, (u_r + 2)%nat, (u_im + 2)%nat))
    ∧ NoDup [u_r; u_im; (u_r + 2)%nat; (u_im + 2)%nat]
    ∧ is_Some (functions w1 !! u_r)
    ∧ is_Some (functions w1 !! u_im)
    ∧ functions w2 !! u_r = functions w1 !! u_r
    ∧ functions w2 !! u_im = functions w1 !! u_im
    ∧ functions w2 !! (u_r + 2)%nat = functions w1 !! u_r
    ∧ functions w2 !! (u_im + 2)%nat = functions w1 !! u_im.
Proof.
  intros Hcall.
  destruct (get_eigenpair_uniform self i) as [[e He]|(eig' & f_r & f_im & Hok)].
  { rewrite He in Hcall. discriminate. }
  rewrite Hok in Hcall. injection Hcall as <- <- <- <-.
  exists {| petsc_options := petsc_options w;
            functions := (functions w ++ [f_r; f_im]) ++ [f_r; f_im] |}.
  split.
  { rewrite Hok. simpl. rewrite length_app. simpl. repeat f_equal; lia. }
  simpl. set (fs := functions w).
  assert (H1 : (fs ++ [f_r; f_im]) !! length fs = Some f_r)
    by by apply list_lookup_middle.
  assert (H2 : (fs ++ [f_r; f_im]) !! S (length fs) = Some f_im).
  { rewrite lookup_app_r by lia.
    by replace (S (length fs) - length fs)%nat with 1%nat by lia. }
  assert (Hlen : length (fs ++ [f_r; f_im]) = (length fs + 2)%nat)
    by by rewrite length_app.
  split_and!.
  - repeat (apply NoDup_cons; split);
      rewrite ?elem_of_cons, ?elem_of_nil; try lia. apply NoDup_nil_2.
  - by rewrite H1.
  - by rewrite H2.
  - rewrite lookup_app_l; [done|]. rewrite Hlen. lia.
  - rewrite lookup_app_l; [done|]. rewrite Hlen. lia.
  - rewrite H1. apply list_lookup_middle. rewrite Hlen. lia.
  - rewrite H2.
    match goal with
    | |- _ !! ?n = _ => replace n with (length (fs ++ [f_r; f_im]) + 1)%nat
                          by (rewrite Hlen; lia)
    end.
    by rewrite lookup_app_r, Nat.add_sub' by lia.
Qed.

End Proofs.

(** * get_eigenvalues and get_eigenpairs *)

Section AggregateProofs.
Context {A : Type} (zero : A) (real : A → A).

Lemma fmap_seq_shift {T} (f : nat → T) (n : nat) :
  f <$> seq 1 n = (λ j, f (S j)) <$> seq 0 n.
Proof. by rewrite <-fmap_S_seq, <-list_fmap_compose. Qed.

(** The loop on indices whose calls all succeed. *)
Lemma get_eigenpairs_loop_Ok (self : EigenSolver A) indices outs :
  Forall2 (appends zero self) indices outs →
  ∀ (w : world A) eigenvalues reals ims,
    get_eigenpairs_loop zero self w indices eigenvalues reals ims
    = Ok ({| petsc_options := petsc_options w;
             functions := functions w ++ (outs ≫= λ o, [o.1.2; o.2]) |},
          (eigenvalues ++ outs.*1.*1,
           (reals ++ ((λ j, length (functions w) + 2 * j)%nat
                        <$> seq 0 (length outs)),
            ims ++ ((λ j, S (length (functions w) + 2 * j))
                      <$> seq 0 (length outs))))).
Proof.
  induction 1 as [|i o indices outs Ho _ IH]; intros w evs rs ims; simpl.
  - rewrite !app_nil_r. by destruct w.
  - rewrite (Ho w). simpl. rewrite IH. simpl.
    rewrite !fmap_seq_shift, <-!(assoc_L (++)), length_app. simpl.
    rewrite !Nat.add_0_r.
    assert (Hr : ∀ c n,
              (λ j, (c + 2 + (j + (j + 0)))%nat) <$> seq 0 n
              = (λ j, (c + S (j + S (j + 0)))%nat) <$> seq 0 n)
      by (intros; apply list_fmap_ext; intros; lia).
    assert (Hi : ∀ c n,
              (λ j, S (c + 2 + (j + (j + 0)))) <$> seq 0 n
              = (λ j, S (c + S (j + S (j + 0)))) <$> seq 0 n)
      by (intros; apply list_fmap_ext; intros; lia).
    by rewrite Hr, Hi.
Qed.

Lemma get_eigenpairs_loop_app (self : EigenSolver A) l1 l2 (w : world A)
    eigenvalues reals ims :
  get_eigenpairs_loop zero self w (l1 ++ l2) eigenvalues reals ims
  = (r ← get_eigenpairs_loop zero self w l1 eigenvalues reals ims;
     get_eigenpairs_loop zero self r.1 l2 r.2.1 r.2.2.1 r.2.2.2).
Proof.
  revert w eigenvalues reals ims.
  induction l1 as [|i l1 IH]; intros w evs rs ims; simpl; [done|].
  destruct (get_eigenpair zero self w i) as [[w' [[eig u_r] u_im]]|e]; simpl;
    [apply IH|done].
Qed.

(** Indices whose calls succeed in one store have outcomes. *)
Lemma appends_exist (self : EigenSolver A) (w : world A) indices :
  (∀ i, i ∈ indices → ∃ r, get_eigenpair zero self w i = Ok r) →
  ∃ outs, Forall2 (appends zero self) indices outs.
Proof.
  induction indices as [|i indices IH]; intros Hok.
  - exists []. constructor.
  - destruct IH as [outs Houts].
    { intros j Hj. apply Hok. by right. }
    destruct (Hok i) as [r Hr]; [left|].
    destruct (get_eigenpair_uniform zero self i)
      as [[e He]|(eig & f_r & f_im & Hi)].
    + rewrite He in Hr. discriminate.
    + exists ((eig, f_r, f_im) :: outs). by constructor.
Qed.

(** The loop of [get_eigenvalues] is the loop of [get_eigenpairs] with the
    functions forgotten and the real part taken. *)
Lemma get_eigenvalues_loop_eq (self : EigenSolver A) indices (w : world A)
    (eigenvalues : list A) reals ims :
  get_eigenvalues_loop zero real self w indices (real <$> eigenvalues)
  = match get_eigenpairs_loop zero self w indices eigenvalues reals ims with
    | Ok r => Ok (r.1, real <$> r.2.1)
    | Err e => Err e
    end.
Proof.
  revert w eigenvalues reals ims.
  induction indices as [|i indices IH]; intros w evs rs ims; simpl; [done|].
  destruct (get_eigenpair zero self w i) as [[w' [[eig u_r] u_im]]|e]; simpl;
    [|done].
  rewrite <-(IH w' (evs ++ [eig]) (rs ++ [u_r]) (ims ++ [u_im])).
  by rewrite fmap_app.
Qed.

Lemma lookup_bind_pair {T U} (a b : T → U) (l : list T) (j : nat) :
  (l ≫= λ o, [a o; b o]) !! (2 * j)%nat = a <$> l !! j
  ∧ (l ≫= λ o, [a o; b o]) !! S (2 * j) = b <$> l !! j.
Proof.
  revert j. induction l as [|o l IH]; intros j; [done|].
  destruct j as [|j]; [done|].
  replace (2 * S j)%nat with (S (S (2 * j))) by lia. simpl. apply IH.
Qed.

(** X10. When each of the calls [get_eigenpair(0)], ..., [get_eigenpair(n-1)]
    succeeds on its own, [get_eigenpairs(n)] succeeds and collects them in
    order: the eigenvalues are those of the single calls, the store grows by
    the 2n functions the single calls create, the j-th real function is the
    one at position [len + 2j] and the j-th imaginary one at [len + 2j + 1]
    (so all returned functions are distinct, and none existed before), and
    the option store is as before. *)
Theorem get_eigenpairs_collects (self : EigenSolver A) (w : world A) (n : Z) :
  (∀ i, 0 ≤ i < n → ∃ r, get_eigenpair zero self w i = Ok r) →
  ∃ outs : list (A * Function A * Function A),
    length outs = Z.to_nat n
    ∧ (∀ j o, outs !! j = Some o → appends zero self (Z.of_nat j) o)
    ∧ get_eigenpairs zero self w n
      = Ok ({| petsc_options := petsc_options w;
               functions := functions w ++ (outs ≫= λ o, [o.1.2; o.2]) |},
            (outs.*1.*1,
             ((λ j, length (functions w) + 2 * j)%nat <$> seq 0 (length outs),
              (λ j, S (length (functions w) + 2 * j))
                <$> seq 0 (length outs))))
    ∧ (∀ j o, outs !! j = Some o →
         (functions w ++ (outs ≫= λ o, [o.1.2; o.2]))
           !! (length (functions w) + 2 * j)%nat = Some o.1.2
         ∧ (functions w ++ (outs ≫= λ o, [o.1.2; o.2]))
             !! S (length (functions w) + 2 * j) = Some o.2).
Proof.
  intros Hok.
  destruct (appends_exist self w (seqZ 0 n)) as [outs Houts].
  { intros i Hi%elem_of_seqZ. apply Hok. lia. }
  exists outs.
  assert (Hlen : length outs = Z.to_nat n).
  { apply Forall2_length in Houts. by rewrite length_seqZ in Houts. }
  split_and!.
  - done.
  - intros j o Hj.
    destruct (Forall2_lookup_r _ _ _ _ _ Houts Hj) as (i & Hi & Hio).
    apply lookup_seqZ in Hi as [-> _]. by rewrite Z.add_0_l in Hio.
  - unfold get_eigenpairs. by rewrite (get_eigenpairs_loop_Ok _ _ _ Houts).
  - intros j o Hj.
    destruct (lookup_bind_pair (λ o : A * Function A * Function A, o.1.2)
                (λ o, o.2) outs j) as [Hr Hi].
    rewrite Hj in Hr, Hi. simpl in Hr, Hi.
    split.
    + rewrite lookup_app_r by lia.
      by replace (length (functions w) + 2 * j - length (functions w))%nat
        with (2 * j)%nat by lia.
    + rewrite lookup_app_r by lia.
      by replace (S (length (functions w) + 2 * j) - length (functions w))%nat
        with (S (2 * j)) by lia.
Qed.

(** X11. For [n <= 0] both aggregations return empty results without a
    single call of [get_eigenpair] and leave the store as it is, on any
    solver object, solved or not. *)
Theorem aggregates_of_nothing (self : EigenSolver A) (w : world A) (n : Z) :
  n ≤ 0 →
  get_eigenpairs zero self w n = Ok (w, ([], ([], [])))
  ∧ get_eigenvalues zero real self w n = Ok (w, []).
Proof.
  intros Hn. unfold get_eigenpairs, get_eigenvalues.
  by rewrite seqZ_nil by done.
Qed.

Lemma get_eigenvalues_agrees_aux (self : EigenSolver A) (w : world A) (n : Z) :
  get_eigenvalues zero real self w n
  = match get_eigenpairs zero self w n with
    | Ok r => Ok (r.1, real <$> r.2.1)
    | Err e => Err e
    end.
Proof.
  unfold get_eigenvalues, get_eigenpairs.
  apply (get_eigenvalues_loop_eq self (seqZ 0 n) w [] [] []).
Qed.

(** X12. [get_eigenvalues] is [get_eigenpairs] with the functions dropped:
    it fails when and as [get_eigenpairs] fails, and otherwise returns the
    real parts of the same eigenvalues and leaves the same store. *)
Theorem get_eigenvalues_agrees (self : EigenSolver A) (w : world A) (n : Z) :
  get_eigenvalues zero real self w n
  = match get_eigenpairs zero self w n with
    | Ok r => Ok (r.1, real <$> r.2.1)
    | Err e => Err e
    end.
Proof.
  unfold get_eigenvalues, get_eigenpairs.
  apply (get_eigenvalues_loop_eq self (seqZ 0 n) w [] [] []).
Qed.

(** X13. Asking for more eigenpairs than have converged fails as a whole:
    when the calls below [nconv] succeed, [get_eigenpairs(n)] and
    [get_eigenvalues(n)] with [n > nconv] fail with OutOfRange and return
    nothing, not the eigenpairs that did converge. *)
Theorem aggregates_beyond_converged (self : EigenSolver A) (w : world A)
    (n : Z) Vs k e :
  V self = Some Vs → K self = Some k → E self = Some e →
  eps_solved e = true →
  Z.of_nat (getConverged e) < n →
  (∀ i, 0 ≤ i < Z.of_nat (getConverged e) →
        ∃ r, get_eigenpair zero self w i = Ok r) →
  get_eigenpairs zero self w n = Err OutOfRange
  ∧ get_eigenvalues zero real self w n = Err OutOfRange.
Proof.
  intros HV HK HE Hsolved Hn Hok.
  assert (Hpairs : get_eigenpairs zero self w n = Err OutOfRange).
  { unfold get_eigenpairs.
    set (c := Z.of_nat (getConverged e)) in *.
    replace n with (c + (n - c)) by lia.
    rewrite seqZ_app by lia. rewrite get_eigenpairs_loop_app.
    destruct (appends_exist self w (seqZ 0 c)) as [outs Houts].
    { intros i Hi%elem_of_seqZ. apply Hok. lia. }
    rewrite (get_eigenpairs_loop_Ok _ _ _ Houts). simpl.
    rewrite (seqZ_cons (0 + c)) by lia. simpl.
    rewrite (get_eigenpair_out_of_range zero self _ (0 + c) Vs k e);
      try done; unfold c; lia. }
  split; [done|].
  by rewrite get_eigenvalues_agrees_aux, Hpairs.
Qed.

End AggregateProofs.

(** * The properties on the small instance *)

Import Sample.

Example sample_interior :
  get_interior_index_set [DirichletBC bc_a; DirichletBC bc_b] V4 = Ok [1; 2].
Proof. vm_compute. reflexivity. Qed.

Example sample_projector :
  projector solver
  = Some {| from_size := 2; is_from := None; to_lo := 0; to_size := 4;
            is_to := [1; 2] |}.
Proof. vm_compute. reflexivity. Qed.

Example sample_solve_result : solved.2 = (1%nat, 5%nat).
Proof. vm_compute. reflexivity. Qed.

Example sample_get_eigenpair :
  (λ r, (vec_data ∘ vector <$> functions r.1, r.2))
    <$> (match get_eigenpair 0 solved.1.1 solved.1.2 0 with
         | Ok r => Some r
         | Err _ => None
         end)
  = Some ([[0; 1; 2; 0]; [0; 3; 4; 0]], (7, 0%nat, 1%nat)).
Proof. vm_compute. reflexivity. Qed.


(** The partition of C2 on the ownership range [0, 4) with the two
    overlapping conditions. *)
Lemma interior_index_set_partition_witness :
  0 ≤ 4
  ∧ ∃ interior : list Z,
      get_interior_index_set (DirichletBC <$> [bc_a; bc_b])
        {| ownership_range := (0, 4) |} = Ok interior
      ∧ StronglySorted Z.lt interior
      ∧ NoDup interior
      ∧ (∀ x, x ∈ interior
              ↔ 0 ≤ x < 4 ∧ ∀ b, b ∈ [bc_a; bc_b] → b !! x = None)
      ∧ (list_to_set interior : gset Z)
          ## (⋃ (dom <$> [bc_a; bc_b]) ∩ list_to_set (seqZ 0 (4 - 0)))
      ∧ (list_to_set interior : gset Z)
          ∪ (⋃ (dom <$> [bc_a; bc_b]) ∩ list_to_set (seqZ 0 (4 - 0)))
        = list_to_set (seqZ 0 (4 - 0))
      ∧ Z.of_nat (length interior)
        + Z.of_nat (size (⋃ (dom <$> [bc_a; bc_b])
                          ∩ list_to_set (seqZ 0 (4 - 0)) : gset Z))
        = 4 - 0.
Proof.
  split; [lia|]. apply (interior_index_set_partition [bc_a; bc_b] 0 4). lia.
Defined.

(** The scatter of C1 on the sample solver: the reduced vector [8; 9] into a
    destination holding [5; 5; 5; 5]. *)
Lemma projector_scatter_copies_interior_witness :
  ∃ sc dest',
    index_set_not_bc solver = Some [1; 2]
    ∧ projector solver = Some sc
    ∧ scatter 0 sc v2 dest4 = Ok dest'
    ∧ vec_lo dest' = vec_lo dest4
    ∧ length (vec_data dest') = length (vec_data dest4)
    ∧ (∀ i g, [1; 2] !! i = Some g →
         vec_data dest' !! local_pos (vec_lo dest4) g = vec_data v2 !! i)
    ∧ (∀ p, (∀ g, g ∈ [1; 2] → local_pos (vec_lo dest4) g ≠ p) →
         vec_data dest' !! p = vec_data dest4 !! p)
    ∧ (λ g, vec_data dest' !! local_pos (vec_lo dest4) g) <$> [1; 2]
      = Some <$> vec_data v2.
Proof.
  apply (projector_scatter_copies_interior 0 K4 M4 u4 two_bcs None None None
           solver [1; 2] v2 dest4);
    vm_compute; reflexivity.
Defined.

(** The reduction of C4 on the sample matrices. *)
Lemma reduced_operators_principal_submatrix_witness :
  ∃ self interior k m,
    EigenSolver_init 0 K4 M4 u4 two_bcs None None None = Ok self
    ∧ get_interior_index_set (bcs_as_list two_bcs) (function_space u4)
      = Ok interior
    ∧ index_set_not_bc self = Some interior
    ∧ K self = Some k ∧ M self = Some m
    ∧ mat_rows k = length interior ∧ mat_cols k = length interior
    ∧ mat_rows m = length interior ∧ mat_cols m = length interior
    ∧ ∀ i j r c, interior !! i = Some r → interior !! j = Some c →
        mat_at k i j
        = mat_at K4 (local_pos (mat_lo K4) r) (local_pos (mat_lo K4) c)
        ∧ mat_at m i j
          = mat_at M4 (local_pos (mat_lo M4) r) (local_pos (mat_lo M4) c).
Proof.
  apply (reduced_operators_principal_submatrix 0 K4 M4 u4 two_bcs
           [bc_a; bc_b] None None None).
  - reflexivity.
  - reflexivity.
  - discriminate.
  - repeat split.
  - repeat split.
  - repeat split.
Defined.

(** The option store of C5 after a solve with the caller's mapping
    [{'eps_tol': '1e-8'}], starting from an empty store. *)
Lemma solve_merges_options_in_effect_witness :
  ∃ self' w' r e0 e',
    solve solver_user store0 3 run2 = Ok (self', w', r)
    ∧ slepc_options solver_user
      = Some (default default_slepc_options (Some user_options))
    ∧ petsc_options w'
      = default default_slepc_options (Some user_options)
        ∪ petsc_options store0
    ∧ E solver_user = Some e0
    ∧ E self' = Some e'
    ∧ eps_options (configured 3 (petsc_options w') e0) = petsc_options w'
    ∧ e' = EPS_solve run2 (configured 3 (petsc_options w') e0)
    ∧ (Some user_options = None →
       petsc_options w' !! "eps_max_it"%string = Some (OInt 100))
    ∧ (∀ user name, Some user_options = Some user →
       petsc_options w' !! name
       = match user !! name with
         | Some value => Some value
         | None => petsc_options store0 !! name
         end).
Proof.
  apply (solve_merges_options_in_effect 0 K4 M4 u4 two_bcs (Some user_options)
           None None solver_user store0 3 run2).
  vm_compute. reflexivity.
Defined.

(** The failure of C6 after a solve in which nothing converged. *)
Lemma get_eigenpair_beyond_nconv_fails_witness :
  ∃ self' w' n its,
    solve solver store0 3 run_none = Ok (self', w', (n, its))
    ∧ nconv self' = Some n
    ∧ (∀ (w'' : world Z) (i : Z),
         Z.of_nat n ≤ i → get_eigenpair 0 self' w'' i = Err OutOfRange)
    ∧ (n = 0%nat →
       ∀ w'' : world Z, get_eigenpair 0 self' w'' 0 = Err OutOfRange).
Proof.
  apply (get_eigenpair_beyond_nconv_fails 0 K4 M4 u4 two_bcs None None None
           solver store0 3 run_none).
  vm_compute. reflexivity.
Defined.

(** The failure of C9 with the prefix ["eps_"]. *)
Lemma init_nonempty_prefix_fails_witness :
  EigenSolver_init 0 K4 M4 u4 two_bcs None (Some "eps_"%string) None
  = Err AttributeError.
Proof.
  apply (init_nonempty_prefix_fails 0 K4 M4 u4 two_bcs None "eps_"%string None).
  discriminate.
Defined.

(** The extraction of C10 on the sample solver, into a store that already
    holds a function with old content. *)
Lemma get_eigenpair_fresh_zero_at_constrained_witness :
  ∃ w3 u_r u_im f_r f_im,
    get_eigenpair 0 solved.1.1 store_used 0 = Ok (w3, (7, u_r, u_im))
    ∧ (length (functions store_used) ≤ u_r)%nat
    ∧ (length (functions store_used) ≤ u_im)%nat
    ∧ u_r ≠ u_im
    ∧ (∀ l f, functions store_used !! l = Some f → functions w3 !! l = Some f)
    ∧ functions w3 !! u_r = Some f_r
    ∧ functions w3 !! u_im = Some f_im
    ∧ length (vec_data (vector f_r)) = local_size (function_space u4)
    ∧ length (vec_data (vector f_im)) = local_size (function_space u4)
    ∧ (∀ g, (ownership_range (function_space u4)).1 ≤ g
            < (ownership_range (function_space u4)).2 →
            g ∉ [1; 2] →
            vec_data (vector f_r)
              !! local_pos (ownership_range (function_space u4)).1 g
            = Some 0
            ∧ vec_data (vector f_im)
                !! local_pos (ownership_range (function_space u4)).1 g
              = Some 0)
    ∧ (∀ j g, [1; 2] !! j = Some g →
            vec_data (vector f_r)
              !! local_pos (ownership_range (function_space u4)).1 g
            = [1; 2] !! j
            ∧ vec_data (vector f_im)
                !! local_pos (ownership_range (function_space u4)).1 g
              = [3; 4] !! j).
Proof.
  apply (get_eigenpair_fresh_zero_at_constrained 0 K4 M4 u4 two_bcs None None
           None solver store0 3 run2 solved.1.1 solved.1.2 solved.2 [1; 2]
           engine_solved 0 7 [1; 2] [3; 4] store_used).
  - vm_compute. reflexivity.
  - reflexivity.
  - split; reflexivity.
  - vm_compute. reflexivity.
  - vm_compute. reflexivity.
  - vm_compute. reflexivity.
  - lia.
  - vm_compute. reflexivity.
  - reflexivity.
  - reflexivity.
Defined.

(** C3. Without boundary conditions the claim asks for full-space functions
    that carry the eigenvector.  On the sample problem built with the empty
    list, the engine holds the eigenvector ([1; 2; 3; 4], [5; 6; 7; 8]) for
    index 0, and [get_eigenpair(0)] returns two functions of the right
    length whose entries are all zero: the branch that would copy the
    eigenvector is skipped together with the scatter. *)
Theorem get_eigenpair_without_bcs_returns_zero :
  EigenSolver_init 0 K4 M4 u4 (BcsList []) None None None = Ok solver_free
  ∧ ∃ self' w' w3,
      solve solver_free store0 3 run4 = Ok (self', w', (1%nat, 5%nat))
      ∧ (E self' ≫= λ e, eps_pairs e !! 0%nat)
        = Some (7, [1; 2; 3; 4], [5; 6; 7; 8])
      ∧ get_eigenpair 0 self' w' 0 = Ok (w3, (7, 0%nat, 1%nat))
      ∧ vec_data ∘ vector <$> functions w3 = [[0; 0; 0; 0]; [0; 0; 0; 0]].
Proof.
  split; [vm_compute; reflexivity|].
  do 3 eexists. split_and!.
  - vm_compute. reflexivity.
  - vm_compute. reflexivity.
  - vm_compute. reflexivity.
  - vm_compute. reflexivity.
Qed.

(** C5 as stated fails: with the caller's mapping [{'eps_tol': '1e-8'}],
    which omits [eps_max_it], and an empty option store, the solve leaves
    [eps_max_it] unset in the store and in what the engine read; the default
    100 is not in effect. *)
Lemma user_mapping_drops_default_max_it :
  user_options !! "eps_max_it"%string = None
  ∧ EigenSolver_init 0 K4 M4 u4 two_bcs (Some user_options) None None
    = Ok solver_user
  ∧ ∃ self' w' r e',
      solve solver_user store0 3 run2 = Ok (self', w', r)
      ∧ E self' = Some e'
      ∧ petsc_options w' !! "eps_max_it"%string = None
      ∧ eps_options e' !! "eps_max_it"%string = None
      ∧ petsc_options w' !! "eps_max_it"%string ≠ Some (OInt 100).
Proof.
  split; [vm_compute; reflexivity|]. split; [vm_compute; reflexivity|].
  do 4 eexists. split_and!.
  - vm_compute. reflexivity.
  - vm_compute. reflexivity.
  - vm_compute. reflexivity.
  - vm_compute. reflexivity.
  - vm_compute. discriminate.
Qed.

(** C7 as stated fails: a boundary condition whose only key is DOF 7, outside
    the ownership range [0, 4), is accepted and the selection returns the
    whole range; no ConfigurationConflict is raised. *)
Lemma foreign_key_is_not_rejected :
  bc_far !! 7 = Some 5
  ∧ get_interior_index_set [DirichletBC bc_far] V4 = Ok [0; 1; 2; 3]
  ∧ get_interior_index_set [DirichletBC bc_far] V4 ≠ Err ConfigurationConflict.
Proof.
  split; [vm_compute; reflexivity|]. split.
  - vm_compute. reflexivity.
  - vm_compute. discriminate.
Qed.

(** C9 as stated fails: the empty string is a prefix that is not [None],
    and the construction succeeds with it. *)
Lemma empty_prefix_does_not_raise :
  (∃ self,
     EigenSolver_init 0 K4 M4 u4 two_bcs None (Some EmptyString) None = Ok self)
  ∧ ∀ e,
      EigenSolver_init 0 K4 M4 u4 two_bcs None (Some EmptyString) None
      ≠ Err e.
Proof.
  split.
  - eexists. vm_compute. reflexivity.
  - intros e. vm_compute. discriminate.
Qed.

(** * The further properties on the small instance *)

Lemma interior_index_set_same_elements_witness :
  get_interior_index_set [DirichletBC bc_a; DirichletBC bc_b] V4
  = get_interior_index_set
      [DirichletBC bc_b; DirichletBC bc_a; DirichletBC bc_b] V4.
Proof.
  apply (interior_index_set_same_elements
           [DirichletBC bc_a; DirichletBC bc_b]
           [DirichletBC bc_b; DirichletBC bc_a; DirichletBC bc_b] V4).
  intros o. rewrite !elem_of_cons, elem_of_nil. tauto.
Defined.

Lemma interior_index_set_add_condition_witness :
  get_interior_index_set ([DirichletBC bc_a] ++ [DirichletBC bc_mid]) V4
  = Ok (filter (λ x, x ∉ dom bc_mid) [1; 2]).
Proof.
  apply (interior_index_set_add_condition [DirichletBC bc_a] bc_mid V4 [1; 2]).
  vm_compute. reflexivity.
Defined.

Lemma init_engine_wiring_witness :
  ∃ e k m,
    E solver = Some e ∧ K solver = Some k ∧ M solver = Some m
    ∧ eps_operators e = Some (k, m)
    ∧ ((None : option (EPS Z)) = None →
       eps_type e = KRYLOVSCHUR ∧ eps_problem_type e = GHEP
       ∧ eps_which e = TARGET_MAGNITUDE ∧ eps_target e = Some 0
       ∧ eps_st_type e = SINVERT)
    ∧ (∀ e0 : EPS Z, None = Some e0 →
       eps_type e = eps_type e0 ∧ eps_problem_type e = eps_problem_type e0
       ∧ eps_which e = eps_which e0 ∧ eps_target e = eps_target e0
       ∧ eps_st_type e = eps_st_type e0 ∧ eps_prefix e = eps_prefix e0
       ∧ eps_nev e = eps_nev e0 ∧ eps_options e = eps_options e0).
Proof.
  apply (init_engine_wiring 0 K4 M4 u4 two_bcs None None None solver).
  vm_compute. reflexivity.
Defined.


Lemma options_persist_across_solves_witness :
  petsc_options solved_user.1.2
  = user_options ∪ (default_slepc_options ∪ petsc_options store0)
  ∧ ∀ name value,
      default_slepc_options !! name = Some value →
      user_options !! name = None →
      petsc_options solved_user.1.2 !! name = Some value
      ∧ ∃ e2, E solved_user.1.1 = Some e2
              ∧ eps_options e2 !! name = Some value.
Proof.
  apply (options_persist_across_solves solver solver_user store0 solved.1.2
           solved_user.1.2 3 3 run2 run2 solved.1.1 solved_user.1.1 solved.2
           solved_user.2 default_slepc_options user_options);
    vm_compute; reflexivity.
Defined.

Lemma get_eigenpair_store_frame_witness :
  petsc_options extracted.1 = petsc_options store_used
  ∧ length (functions extracted.1) = (length (functions store_used) + 2)%nat
  ∧ take (length (functions store_used)) (functions extracted.1)
    = functions store_used
  ∧ 1%nat = length (functions store_used)
  ∧ 2%nat = S (length (functions store_used)).
Proof.
  apply (get_eigenpair_store_frame 0 solved.1.1 store_used extracted.1 0 7
           1%nat 2%nat).
  vm_compute. reflexivity.
Defined.

Lemma get_eigenpair_repeat_witness :
  ∃ w2,
    get_eigenpair 0 solved.1.1 extracted.1 0
    = Ok (w2, (7, (1 + 2)%nat, (2 + 2)%nat))
    ∧ NoDup [1%nat; 2%nat; (1 + 2)%nat; (2 + 2)%nat]
    ∧ is_Some (functions extracted.1 !! 1%nat)
    ∧ is_Some (functions extracted.1 !! 2%nat)
    ∧ functions w2 !! 1%nat = functions extracted.1 !! 1%nat
    ∧ functions w2 !! 2%nat = functions extracted.1 !! 2%nat
    ∧ functions w2 !! (1 + 2)%nat = functions extracted.1 !! 1%nat
    ∧ functions w2 !! (2 + 2)%nat = functions extracted.1 !! 2%nat.
Proof.
  apply (get_eigenpair_repeat 0 solved.1.1 store_used extracted.1 0 7
           1%nat 2%nat).
  vm_compute. reflexivity.
Defined.

Lemma get_eigenpairs_collects_witness :
  ∃ outs : list (Z * Function Z * Function Z),
    length outs = Z.to_nat 1
    ∧ (∀ j o, outs !! j = Some o → appends 0 solved.1.1 (Z.of_nat j) o)
    ∧ get_eigenpairs 0 solved.1.1 store_used 1
      = Ok ({| petsc_options := petsc_options store_used;
               functions := functions store_used
                            ++ (outs ≫= λ o, [o.1.2; o.2]) |},
            (outs.*1.*1,
             ((λ j, length (functions store_used) + 2 * j)%nat
                <$> seq 0 (length outs),
              (λ j, S (length (functions store_used) + 2 * j))
                <$> seq 0 (length outs))))
    ∧ (∀ j o, outs !! j = Some o →
         (functions store_used ++ (outs ≫= λ o, [o.1.2; o.2]))
           !! (length (functions store_used) + 2 * j)%nat = Some o.1.2
         ∧ (functions store_used ++ (outs ≫= λ o, [o.1.2; o.2]))
             !! S (length (functions store_used) + 2 * j) = Some o.2).
Proof.
  apply (get_eigenpairs_collects 0 solved.1.1 store_used 1).
  intros i Hi. assert (i = 0) as -> by lia.
  eexists. vm_compute. reflexivity.
Defined.

Lemma aggregates_of_nothing_witness :
  get_eigenpairs 0 solver store_used (-2) = Ok (store_used, ([], ([], [])))
  ∧ get_eigenvalues 0 id solver store_used (-2) = Ok (store_used, []).
Proof.
  apply (aggregates_of_nothing 0 id solver store_used (-2)). lia.
Defined.

Lemma aggregates_beyond_converged_witness :
  get_eigenpairs 0 solved.1.1 store_used 3 = Err OutOfRange
  ∧ get_eigenvalues 0 id solved.1.1 store_used 3 = Err OutOfRange.
Proof.
  apply (aggregates_beyond_converged 0 id solved.1.1 store_used 3 V4
           K_reduced engine_solved).
  - vm_compute. reflexivity.
  - vm_compute. reflexivity.
  - vm_compute. reflexivity.
  - vm_compute. reflexivity.
  - vm_compute. reflexivity.
  - intros i Hi.
    change (Z.of_nat (getConverged engine_solved)) with 1 in Hi.
    assert (i = 0) as -> by lia.
    eexists. vm_compute. reflexivity.
Defined.

Lemma init_all_constrained_witness :
  ∃ self k m sc,
    EigenSolver_init 0 K4 M4 u4 (BcsObj (DirichletBC bc_all)) None None None
    = Ok self
    ∧ index_set_not_bc self = Some []
    ∧ K self = Some k ∧ M self = Some m
    ∧ mat_rows k = 0%nat ∧ mat_cols k = 0%nat
    ∧ mat_rows m = 0%nat ∧ mat_cols m = 0%nat
    ∧ projector self = Some sc ∧ from_size sc = 0%nat ∧ is_to sc = [].
Proof.
  apply (init_all_constrained 0 K4 M4 u4 (BcsObj (DirichletBC bc_all))
           [bc_all] None None None).
  - reflexivity.
  - reflexivity.
  - discriminate.
  - repeat split.
  - repeat split.
  - repeat split.
  - intros x Hx. exists bc_all. split; [left|].
    change (0 ≤ x < 4) in Hx.
    assert (Hcases : x = 0 ∨ x = 1 ∨ x = 2 ∨ x = 3) by lia.
    destruct Hcases as [Hx0|[Hx0|[Hx0|Hx0]]]; rewrite Hx0;
      eexists; vm_compute; reflexivity.
Defined.
